(** * render3/util.ts: a shallow embedding and its verified properties

    The development follows [packages/core/src/render3/util.ts].  It has
    three parts:

    - [Js]: the fragment of the JavaScript semantics the file relies on
      (strict equality, 32-bit integer operators, property access that
      may throw);
    - the embedding of the functions of [util.ts], one Rocq definition
      per source function, with the same names;
    - the theorems. *)

From Stdlib Require Import ZArith Bool String Lia Recdef.
From Stdlib Require Import Floats.SpecFloat.
From stdpp Require Import base option list.

Local Open Scope Z_scope.
Set Warnings "-register-all".

(* ===================================================================== *)
(** * Part I: JavaScript primitives *)
(* ===================================================================== *)

Module Js.

(** ** Language values as seen by [isDifferent(a: any, b: any)]

    Primitives are compared by content, objects (arrays and functions
    included) by identity: an object is represented by its reference.
    Numbers are IEEE-754 binary64 values, in the representation of the
    Standard Library's [spec_float]. *)
Inductive value : Type :=
| JsUndefined
| JsNull
| JsBoolean (b : bool)
| JsNumber (x : spec_float)
| JsString (s : string)
| JsSymbol (id : nat)
| JsObject (ref : nat).

(** Structural identity of two number representations. *)
Definition same_number (x y : spec_float) : bool :=
  match x, y with
  | S754_zero s1, S754_zero s2 => Bool.eqb s1 s2
  | S754_infinity s1, S754_infinity s2 => Bool.eqb s1 s2
  | S754_nan, S754_nan => true
  | S754_finite s1 m1 e1, S754_finite s2 m2 e2 =>
      Bool.eqb s1 s2 && Pos.eqb m1 m2 && Z.eqb e1 e2
  | _, _ => false
  end.

(** [Number::equal] of the language specification: NaN equals
    nothing, the two zeros are equal, otherwise same value. *)
Definition number_equal (x y : spec_float) : bool :=
  match x, y with
  | S754_nan, _ => false
  | _, S754_nan => false
  | S754_zero _, S754_zero _ => true
  | _, _ => same_number x y
  end.

(** [x === y]: values of different types are never equal. *)
Definition strict_equals (x y : value) : bool :=
  match x, y with
  | JsUndefined, JsUndefined => true
  | JsNull, JsNull => true
  | JsBoolean b1, JsBoolean b2 => Bool.eqb b1 b2
  | JsNumber n1, JsNumber n2 => number_equal n1 n2
  | JsString s1, JsString s2 => String.eqb s1 s2
  | JsSymbol i1, JsSymbol i2 => Nat.eqb i1 i2
  | JsObject r1, JsObject r2 => Nat.eqb r1 r2
  | _, _ => false
  end.

(** [x !== y] *)
Definition strict_not_equals (x y : value) : bool :=
  negb (strict_equals x y).

Definition NaN : value := JsNumber S754_nan.

(** The binary64 number of an integer literal. *)
Definition number (z : Z) : value := JsNumber (binary_normalize 53 1024 z 0 false).

(** ** 32-bit integer operators

    The bitwise operators convert their operands with [ToInt32]; the
    shift count is taken modulo 32. *)
Definition ToInt32 (z : Z) : Z := (z + 2 ^ 31) mod 2 ^ 32 - 2 ^ 31.

Definition shift_count (n : Z) : Z := n mod 32.

(** [a & b] *)
Definition bit_and (a b : Z) : Z := Z.land (ToInt32 a) (ToInt32 b).
(** [a | b] *)
Definition bit_or (a b : Z) : Z := Z.lor (ToInt32 a) (ToInt32 b).
(** [a >> n], the sign-propagating right shift *)
Definition shift_right (a n : Z) : Z := Z.shiftr (ToInt32 a) (shift_count n).
(** [a << n] *)
Definition shift_left (a n : Z) : Z :=
  ToInt32 (Z.shiftl (ToInt32 a) (shift_count n)).

(** ** Calls that may throw

    Reading a property of [null] or [undefined] throws a [TypeError];
    the debug assertions ([ngDevMode && ...]) are compiled out. *)
Inductive outcome (A : Type) : Type :=
| Returns (a : A)
| TypeError.
Arguments Returns {A} a.
Arguments TypeError {A}.

Definition bind {A B} (m : outcome A) (k : A -> outcome B) : outcome B :=
  match m with
  | Returns a => k a
  | TypeError => TypeError
  end.

End Js.

Import Js.

Notation "'let!' x ':=' m 'in' k" := (Js.bind m (fun x => k))
  (at level 10, x name, m at level 100, k at level 200).

(* ===================================================================== *)
(** * Part II: the functions of [util.ts] *)
(* ===================================================================== *)

(** ** [isDifferent] *)

(** [return !(a !== a && b !== b) && a !== b;] *)
Definition isDifferent (a b : value) : bool :=
  negb (strict_not_equals a a && strict_not_equals b b) && strict_not_equals a b.

(** The two relations of the specification of [isDifferent]. *)
Definition is_NaN (v : value) : Prop := v = NaN.

(** Reference/scalar equality: the same primitive or the same reference,
    NaN excepted, and the two zeros of the number type. *)
Definition reference_or_scalar_equal (a b : value) : Prop :=
  (a = b /\ ~ is_NaN a) \/
  (exists s1 s2, a = JsNumber (S754_zero s1) /\ b = JsNumber (S754_zero s2)).

(** ** [flatten]

    [flatten] allocates arrays ([slice], [concat], the result) and
    appends to one of them ([push]): its arrays live in a store and are
    named by their address.  An element of an array is either a value
    that is not an array, or the address of an array. *)

Inductive item : Type :=
| Plain (v : value)
| ArrayRef (a : nat).

(** The array at address [a] of the store [h] is [h !! a]. *)
Abbreviation store := (list (list item)).

(** A new array is allocated past the end of the store. *)
Definition alloc (h : store) (elems : list item) : nat * store :=
  (length h, h ++ [elems]).

(** [arr.slice(from)]: a new array. *)
Definition Array_slice (h : store) (arr from : nat) : option (nat * store) :=
  elems ← h !! arr; Some (alloc h (drop from elems)).

(** [arr.concat(other)] for an array [other]: a new array holding the
    elements of [arr], then those of [other]. *)
Definition Array_concat (h : store) (arr other : nat) : option (nat * store) :=
  elems ← h !! arr; others ← h !! other; Some (alloc h (elems ++ others)).

(** [arr.push(x)]: the array is extended in place. *)
Definition Array_push (h : store) (arr : nat) (x : item) : store :=
  alter (fun elems => elems ++ [x]) arr h.

(** The variables of the loop of [flatten]. *)
Record state : Type := mkState {
  st_store : store;
  st_list : nat;
  st_i : nat;
  st_result : nat
}.

(** The body of the loop, run when [i < list.length]:
    [const item = list[i];
     if (Array.isArray(item)) {
       if (item.length > 0) {
         list = item.concat(list.slice(i + 1));
         i = 0;
       } else {
         i++;
       }
     } else {
       result.push(item);
       i++;
     }]
    [None] stands for an address without an array, which no JavaScript
    reference can be. *)
Definition flatten_body (s : state) : option state :=
  let h := st_store s in
  list ← h !! st_list s;
  item ← list !! st_i s;
  match item with
  | ArrayRef a =>
      elems ← h !! a;
      if (0 <? length elems)%nat then
        '(tail, h1) ← Array_slice h (st_list s) (st_i s + 1);
        '(list', h2) ← Array_concat h1 a tail;
        Some (mkState h2 list' 0 (st_result s))
      else
        Some (mkState h (st_list s) (st_i s + 1) (st_result s))
  | Plain _ =>
      Some (mkState (Array_push h (st_result s) item) (st_list s) (st_i s + 1) (st_result s))
  end.

(** [while (i < list.length) { ... }], with a bound on the number of
    iterations; [None] when the bound is reached. *)
Fixpoint flatten_loop (fuel : nat) (s : state) : option state :=
  match fuel with
  | O => None
  | S fuel =>
      list ← st_store s !! st_list s;
      if (st_i s <? length list)%nat then
        s' ← flatten_body s; flatten_loop fuel s'
      else Some s
  end.

(** [const result: any[] = [];
     let i = 0;
     while ...
     return result;]
    The function returns the address of [result], in the final store. *)
Definition flatten (fuel : nat) (h : store) (list : nat) : option (store * nat) :=
  let '(result, h0) := alloc h [] in
  s ← flatten_loop fuel (mkState h0 list 0 result);
  Some (st_store s, st_result s).

(** A finite nested sequence, and the array elements that stand for it
    in a store. *)
Inductive nested : Type :=
| Leaf (v : value)
| Nested (children : list nested).

Inductive represents (h : store) : item -> nested -> Prop :=
| represents_leaf v : represents h (Plain v) (Leaf v)
| represents_array a elems ts :
    h !! a = Some elems ->
    Forall2 (represents h) elems ts ->
    represents h (ArrayRef a) (Nested ts).

(** The leaves of a nested sequence, from left to right. *)
Fixpoint leaves (t : nested) : list value :=
  match t with
  | Leaf v => [v]
  | Nested ts => flat_map leaves ts
  end.

(** The number of nodes of a nested sequence, and of array wrappers
    among them. *)
Fixpoint nodes (t : nested) : nat :=
  match t with
  | Leaf _ => 1
  | Nested ts => S (list_sum (map nodes ts))
  end.

Fixpoint wrappers (t : nested) : nat :=
  match t with
  | Leaf _ => 0
  | Nested ts => S (list_sum (map wrappers ts))
  end.

(** A loop state whose working list holds elements of the arrays of the
    store [h0] the function was called with, and the part of the
    working list the loop has not looked at yet. *)
Definition working_list (h0 : store) (s : state) (ts : list nested) : Prop :=
  (forall a elems, h0 !! a = Some elems -> st_store s !! a = Some elems) /\
  exists list, st_store s !! st_list s = Some list /\ Forall2 (represents h0) list ts.

Definition unprocessed (s : state) (ts : list nested) : list nested :=
  drop (st_i s) ts.

(** The loop invariant: the working list is as above and [result], an
    array that [h0] does not have, holds [acc]. *)
Definition loop_invariant (h0 : store) (s : state) (ts : list nested)
    (acc : list item) : Prop :=
  working_list h0 s ts /\
  st_store s !! st_result s = Some acc /\
  h0 !! st_result s = None /\
  st_list s <> st_result s.

(** [[1, [2, [3, 4]], 5]], as the array at address 2 of a store, and as
    a nested sequence. *)
Definition sample_store : store :=
  [ [Plain (number 3); Plain (number 4)];
    [Plain (number 2); ArrayRef 0];
    [Plain (number 1); ArrayRef 1; Plain (number 5)] ].

Definition sample_nested : list nested :=
  [ Leaf (number 1);
    Nested [Leaf (number 2); Nested [Leaf (number 3); Leaf (number 4)]];
    Leaf (number 5) ].

(** ** Static descriptors and view records

    [util.ts] imports its constants from [interfaces/view.ts],
    [interfaces/container.ts] and [interfaces/injector.ts].  Nothing
    below depends on their values: the slot positions of the view
    header, the length of a container record and the two constants of
    the injector location are parameters. *)

Class ViewLayout : Type := {
  HOST : nat;
  TVIEW : nat;
  PARENT : nat;
  DECLARATION_VIEW : nat;
  T_HOST : nat;
  HEADER_OFFSET : nat;
  LCONTAINER_LENGTH : nat
}.

Class RelativeInjectorLocationFlags : Type := {
  InjectorIndexMask : Z;
  ViewOffsetShift : Z
}.

(** [TNode]: the fields [util.ts] reads.  [parent] and [next] are
    [TNode | null]. *)
Inductive TNode : Type := mkTNode {
  index : Z;
  injectorIndex : Z;
  parent : option TNode;
  next : option TNode
}.

(** [TView]: [firstChild] is [TNode | null]. *)
Record TView : Type := mkTView {
  firstChild : option TNode
}.

(** What a slot of an [LView] may hold.  [LView], [LContainer] and
    [StylingContext] are all plain arrays, told apart by their length
    only ([isLView], [isLContainer]). *)
Inductive any : Type :=
| Null
| Undefined
| RNode (id : nat)
| TNodeObj (tNode : TNode)
| TViewObj (tView : TView)
| Arr (items : list any).

(** [Array.isArray(value)] *)
Definition isArray (value : any) : bool :=
  match value with
  | Arr _ => true
  | _ => false
  end.

(** [value[i]]: throws on [null] and [undefined], is [undefined] past
    the end of an array and on objects without indexed properties. *)
Definition get_index (value : any) (i : nat) : outcome any :=
  match value with
  | Null | Undefined => TypeError
  | Arr items => Returns (default Undefined (items !! i))
  | _ => Returns Undefined
  end.

(** [value[n]] for a number [n] read from a descriptor. *)
Definition get_number_index (value : any) (n : Z) : outcome any :=
  if n <? 0 then
    match value with
    | Null | Undefined => TypeError
    | _ => Returns Undefined
    end
  else get_index value (Z.to_nat n).

(** [k (items[i])], or [d] when [items[i]] is out of range. *)
Definition at_slot {A B : Type} (k : A -> B) (d : B) : list A -> nat -> B :=
  fix go (items : list A) (i : nat) {struct items} : B :=
    match items, i with
    | [], _ => d
    | x :: _, O => k x
    | _ :: rest, S i => go rest i
    end.

(** [TNode | null] as a slot value. *)
Definition of_TNode (t : option TNode) : any :=
  match t with
  | Some t => TNodeObj t
  | None => Null
  end.

Section Util.

Context {layout : ViewLayout} {flags : RelativeInjectorLocationFlags}.

(** [return Array.isArray(value) && value.length === LCONTAINER_LENGTH;] *)
Definition isLContainer (value : any) : bool :=
  match value with
  | Arr items => Nat.eqb (length items) LCONTAINER_LENGTH
  | _ => false
  end.

(** [return Array.isArray(value) && value.length >= HEADER_OFFSET;] *)
Definition isLView (value : any) : bool :=
  match value with
  | Arr items => Nat.leb HEADER_OFFSET (length items)
  | _ => false
  end.

(** [const parent = lView[PARENT];
     return isLContainer(parent) ? parent[PARENT] ! : parent;] *)
Definition getLViewParent (lView : any) : outcome any :=
  let! parent := get_index lView PARENT in
  if isLContainer parent then get_index parent PARENT else Returns parent.

(** [while (Array.isArray(value)) { value = value[HOST] as any; }
     return value;]
    The loop descends into the value it was given, hence the
    structural recursion: [at_slot] applies the rest of the loop to
    the element at [HOST], or ends it with [undefined] when the array
    is too short. *)
Fixpoint readElementValue (value : any) : any :=
  match value with
  | Arr items => at_slot readElementValue Undefined items HOST
  | _ => value
  end.

(** [return readElementValue(hostView[tNode.index]);] *)
Definition getNativeByTNode (tNode : TNode) (hostView : any) : outcome any :=
  let! slot := get_number_index hostView (index tNode) in
  Returns (readElementValue slot).

(** The loop of [getLastRootElementFromView], entered with a non-null
    [child]:
    [while (child) { lastChild = child; child = child.next; }] *)
Fixpoint lastSibling (child : TNode) : TNode :=
  match child with
  | mkTNode _ _ _ (Some sibling) => lastSibling sibling
  | mkTNode _ _ _ None => child
  end.

(** [const tView = lView[TVIEW];
     let child = tView.firstChild;
     let lastChild: TNode;
     while (child) { lastChild = child; child = child.next; }
     return lView[lastChild !.index];]
    When the loop is not entered [lastChild] is [undefined] and
    [lastChild.index] throws.  The [TVIEW] slot of a view holds its
    [TView]; any other content is taken to have no [firstChild]. *)
Definition getLastRootElementFromView (lView : any) : outcome any :=
  let! tView := get_index lView TVIEW in
  match tView with
  | TViewObj tView =>
      match firstChild tView with
      | Some child => get_number_index lView (index (lastSibling child))
      | None => TypeError
      end
  | _ => TypeError
  end.

(** [return (parentLocation as any as number) &
            RelativeInjectorLocationFlags.InjectorIndexMask;] *)
Definition getParentInjectorIndex (parentLocation : Z) : Z :=
  bit_and parentLocation InjectorIndexMask.

(** [return (parentLocation as any as number) >>
            RelativeInjectorLocationFlags.ViewOffsetShift;] *)
Definition getParentInjectorViewOffset (parentLocation : Z) : Z :=
  shift_right parentLocation ViewOffsetShift.

(** The loop of [getParentInjectorView]:
    [while (viewOffset > 0) {
       parentView = parentView[DECLARATION_VIEW] !;
       viewOffset--;
     }
     return parentView;] *)
Function getParentInjectorView_loop (viewOffset : Z) (parentView : any)
  {measure Z.to_nat viewOffset} : outcome any :=
  if Z_gt_dec viewOffset 0 then
    match get_index parentView DECLARATION_VIEW with
    | Returns declarationView =>
        getParentInjectorView_loop (viewOffset - 1) declarationView
    | TypeError => TypeError
    end
  else Returns parentView.
Proof. intros. lia. Defined.

(** [let viewOffset = getParentInjectorViewOffset(location);
     let parentView = startView;
     while ... ] *)
Definition getParentInjectorView (location : Z) (startView : any) : outcome any :=
  getParentInjectorView_loop (getParentInjectorViewOffset location) startView.

(** The loop of the first branch of [getParentInjectorTNode]:
    [while (parentTNode.parent != null &&
            injectorIndex == parentTNode.injectorIndex) {
       parentTNode = parentTNode.parent;
     }
     return parentTNode;] *)
Fixpoint getParentInjectorTNode_static (injectorIndex0 : Z) (parentTNode : TNode)
  : TNode :=
  match parentTNode with
  | mkTNode _ idx (Some grandParent) _ =>
      if injectorIndex0 =? idx
      then getParentInjectorTNode_static injectorIndex0 grandParent
      else parentTNode
  | mkTNode _ _ None _ => parentTNode
  end.

(** The loop of the second branch:
    [while (viewOffset > 1) {
       parentView = parentView[DECLARATION_VIEW] !;
       parentTNode = parentView[T_HOST] as TElementNode;
       viewOffset--;
     }
     return parentTNode;] *)
Function getParentInjectorTNode_loop (viewOffset : Z) (parentView parentTNode : any)
  {measure Z.to_nat viewOffset} : outcome any :=
  if Z_gt_dec viewOffset 1 then
    match get_index parentView DECLARATION_VIEW with
    | Returns declarationView =>
        match get_index declarationView T_HOST with
        | Returns tHost =>
            getParentInjectorTNode_loop (viewOffset - 1) declarationView tHost
        | TypeError => TypeError
        end
    | TypeError => TypeError
    end
  else Returns parentTNode.
Proof. intros. lia. Defined.

(** [if (startTNode.parent && startTNode.parent.injectorIndex !== -1) {
       const injectorIndex = startTNode.parent.injectorIndex;
       let parentTNode = startTNode.parent;
       while ... return parentTNode;
     }
     let viewOffset = getParentInjectorViewOffset(location);
     let parentView = startView;
     let parentTNode = startView[T_HOST] as TElementNode;
     while ... return parentTNode;] *)
Definition getParentInjectorTNode (location : Z) (startView : any) (startTNode : TNode)
  : outcome any :=
  match parent startTNode with
  | Some parentTNode =>
      if negb (injectorIndex parentTNode =? -1) then
        Returns (TNodeObj
          (getParentInjectorTNode_static (injectorIndex parentTNode) parentTNode))
      else
        let! tHost := get_index startView T_HOST in
        getParentInjectorTNode_loop (getParentInjectorViewOffset location) startView tHost
  | None =>
      let! tHost := get_index startView T_HOST in
      getParentInjectorTNode_loop (getParentInjectorViewOffset location) startView tHost
  end.

End Util.

(** ** Vocabulary of the specification *)

(** Modelled from the spec: the encoder of an injector location, which
    [util.ts] does not define (it only decodes).  "Low-order
    bits hold scope-index masked to a fixed bit width; the remaining
    high-order bits, right-shifted by a fixed constant, hold
    view-offset." *)
Definition encodeInjectorLocation {flags : RelativeInjectorLocationFlags}
    (injectorIndex0 viewOffset : Z) : Z :=
  bit_or (bit_and injectorIndex0 InjectorIndexMask)
         (shift_left viewOffset ViewOffsetShift).

(** The view reached after [n] hops along the declaration-view chain. *)
Fixpoint declarationViewAncestor {layout : ViewLayout} (n : nat) (view : any)
  : outcome any :=
  match n with
  | O => Returns view
  | S n =>
      let! declarationView := get_index view DECLARATION_VIEW in
      declarationViewAncestor n declarationView
  end.

(** A Container Record, as [isLContainer] recognises it: an array of
    exactly the fixed length. *)
Definition is_container_record {layout : ViewLayout} (v : any) : Prop :=
  exists items, v = Arr items /\ length items = LCONTAINER_LENGTH.

(** The static parent descriptor has no usable scope index. *)
Definition no_usable_parent_scope (startTNode : TNode) : Prop :=
  match parent startTNode with
  | Some parentTNode => injectorIndex parentTNode = -1
  | None => True
  end.

(** The static parent descriptor has a valid scope index. *)
Definition has_parent_scope (startTNode : TNode) : Prop :=
  exists parentTNode,
    parent startTNode = Some parentTNode /\ injectorIndex parentTNode <> -1.

(** From the specification of the fast path: "while it has a further
    static parent AND that further parent shares the identical scope
    index, keep climbing; return the first ancestor whose scope index
    differs from its own parent's, or the last reachable ancestor". *)
Fixpoint collapsed_scope_owner (tNode : TNode) : TNode :=
  match tNode with
  | mkTNode _ idx (Some further) _ =>
      if injectorIndex further =? idx
      then collapsed_scope_owner further
      else tNode
  | mkTNode _ _ None _ => tNode
  end.

(** A bare Render Node: not an array, whatever its length. *)
Definition is_render_node (v : any) : Prop := exists id, v = RNode id.

(** ** Sample constants, for the examples

    A view header of eighteen slots and the fifteen-bit index mask under
    a sixteen-bit shift. *)
Definition sample_layout : ViewLayout := {|
  HOST := 0;
  TVIEW := 1;
  PARENT := 3;
  T_HOST := 6;
  DECLARATION_VIEW := 17;
  HEADER_OFFSET := 18;
  LCONTAINER_LENGTH := 8
|}.

Definition sample_flags : RelativeInjectorLocationFlags := {|
  InjectorIndexMask := 32767;
  ViewOffsetShift := 16
|}.

(** A view record of the sample layout: the header slots [util.ts]
    reads, the others [null], then the dynamic slots. *)
Definition sample_view (host tView parentRef tHost declarationView : any)
    (slots : list any) : any :=
  Arr ([host; tView; Null; parentRef; Null; Null; tHost]
       ++ replicate 10 Null ++ [declarationView] ++ slots).

(** A container record of the sample layout. *)
Definition sample_container (host parentRef : any) : any :=
  Arr ([host; Null; Null; parentRef] ++ replicate 4 Null).

(** Three descriptors of one template: an element whose injector is
    at index 3, a child element whose injector is at index 12, and a
    child of that one, which has no injector of its own. *)
Definition sample_grandparent : TNode := mkTNode 18 3 None None.
Definition sample_parent : TNode := mkTNode 19 12 (Some sample_grandparent) None.
Definition sample_start : TNode := mkTNode 20 12 (Some sample_parent) None.

(** A view with a single root descriptor, whose slot holds a container
    record around render node 7 (an element that injects a
    [ViewContainerRef]). *)
Definition sample_root : TNode := mkTNode 18 (-1) None None.

Definition sample_wrapped_view : any :=
  sample_view Null (TViewObj (mkTView (Some sample_root))) Null Null Null
              [sample_container (RNode 7) Null].

(** The outer view of the examples, its host descriptor, and a view
    declared in it. *)
Definition sample_host : TNode := mkTNode 18 0 None None.

Definition sample_outer_view : any :=
  sample_view Null Null Null (TNodeObj sample_host) Null [].

Definition sample_inner_view : any :=
  sample_view Null Null (sample_container Null sample_outer_view)
              Null sample_outer_view [].

(** ** Further functions of [util.ts] *)

(** [Type(x)] of the language specification, which [===] compares
    first. *)
Inductive js_type : Type :=
| TUndefined | TNull | TBoolean | TNumber | TString | TSymbol | TObject.

Definition type_of (v : value) : js_type :=
  match v with
  | JsUndefined => TUndefined
  | JsNull => TNull
  | JsBoolean _ => TBoolean
  | JsNumber _ => TNumber
  | JsString _ => TString
  | JsSymbol _ => TSymbol
  | JsObject _ => TObject
  end.

(** [for (let i = 0; i < items.length; i++) { arr.push(items[i]); }]
    on the store of [flatten], with a bound on the number of
    iterations.  [items.length] is read again at every test. *)
Fixpoint addAllToArray_loop (fuel : nat) (h : store) (items arr i : nat)
  : option store :=
  match fuel with
  | O => None
  | S fuel =>
      elems ← h !! items;
      if (i <? length elems)%nat then
        x ← elems !! i;
        addAllToArray_loop fuel (Array_push h arr x) items arr (i + 1)
      else Some h
  end.

Definition addAllToArray (fuel : nat) (h : store) (items arr : nat) : option store :=
  addAllToArray_loop fuel h items arr 0.

(** The non-empty arrays of a nested sequence: those [flatten]
    unwraps. *)
Fixpoint unwrappings (t : nested) : nat :=
  match t with
  | Leaf _ => 0
  | Nested ts =>
      (match ts with [] => 0 | _ :: _ => 1 end + list_sum (map unwrappings ts))%nat
  end.

Section UtilMore.

Context {layout : ViewLayout}.

(** [return view[index + HEADER_OFFSET];] *)
Definition loadInternal (view : any) (index0 : Z) : outcome any :=
  get_number_index view (index0 + Z.of_nat HEADER_OFFSET).

(** [while (Array.isArray(value)) {
       value = value[HOST] as any;
       if (isLContainer(value)) { return value; }
     }
     return null;] *)
Fixpoint getLContainer (value : any) : any :=
  match value with
  | Arr items =>
      at_slot (fun host => if isLContainer host then host else getLContainer host)
              Null items HOST
  | _ => Null
  end.

(** [return readElementValue(lView[index + HEADER_OFFSET]);] *)
Definition getNativeByIndex (index0 : Z) (lView : any) : outcome any :=
  let! slot := get_number_index lView (index0 + Z.of_nat HEADER_OFFSET) in
  Returns (readElementValue slot).

(** [const slotValue = hostView[nodeIndex];
     const lView = isLView(slotValue) ? slotValue : slotValue[HOST];
     return lView;] *)
Definition getComponentViewByIndex (nodeIndex : Z) (hostView : any) : outcome any :=
  let! slotValue := get_number_index hostView nodeIndex in
  if isLView slotValue then Returns slotValue else get_index slotValue HOST.

End UtilMore.

(** Strings as sequences of UTF-16 code units, and
    [str.indexOf(searchString)]: the first position at which
    [searchString] occurs, or [-1]. *)
Fixpoint starts_with (searchString str : list N) : bool :=
  match searchString, str with
  | [], _ => true
  | _ :: _, [] => false
  | c :: searchString, d :: str => N.eqb c d && starts_with searchString str
  end.

Fixpoint indexOf_from (str searchString : list N) (position : Z) : Z :=
  if starts_with searchString str then position
  else match str with
       | [] => -1
       | _ :: str => indexOf_from str searchString (position + 1)
       end.

Definition indexOf (str searchString : list N) : Z :=
  indexOf_from str searchString 0.

(** [export const INTERPOLATION_DELIMITER = `�`;] *)
Definition INTERPOLATION_DELIMITER : list N := [65533%N].

(** [return str.indexOf(INTERPOLATION_DELIMITER) >= 0;] *)
Definition isPropMetadataString (str : list N) : bool :=
  0 <=? indexOf str INTERPOLATION_DELIMITER.

(** The static ancestors of a descriptor, nearest first, and its
    sibling chain, itself first. *)
Fixpoint ancestors (tNode : TNode) : list TNode :=
  match tNode with
  | mkTNode _ _ (Some parentTNode) _ => parentTNode :: ancestors parentTNode
  | mkTNode _ _ None _ => []
  end.

Fixpoint siblings (tNode : TNode) : list TNode :=
  match tNode with
  | mkTNode _ _ _ (Some sibling) => tNode :: siblings sibling
  | mkTNode _ _ _ None => [tNode]
  end.


Definition sample_flat_store : store :=
  [ [Plain (number 1); Plain (number 2)]; [Plain (number 3)] ].

(** A component view of the sample layout, around render node 9, and a
    view whose first dynamic slot holds it inside a container record. *)
Definition sample_component_view : any :=
  sample_view (RNode 9) Null Null Null Null [].

Definition sample_host_view : any :=
  sample_view Null (TViewObj (mkTView (Some sample_root))) Null Null Null
              [sample_container sample_component_view Null].

(** Two root descriptors of one template, the first followed by the
    second, and a view of that template over render nodes 1 and 2. *)
Definition sample_second_root : TNode := mkTNode 19 (-1) None None.
Definition sample_first_root : TNode :=
  mkTNode 18 (-1) None (Some sample_second_root).

Definition sample_two_root_view : any :=
  sample_view Null (TViewObj (mkTView (Some sample_first_root))) Null Null Null
              [RNode 1; RNode 2].

(** A view declared in [sample_inner_view]. *)
Definition sample_innermost_view : any :=
  sample_view Null Null sample_inner_view Null sample_inner_view [].

(* ===================================================================== *)
(** * Part III: theorems *)
(* ===================================================================== *)

Section IsDifferent.

Lemma same_number_eq x y : same_number x y = true <-> x = y.
Proof.
  destruct x as [s1|s1| |s1 m1 e1], y as [s2|s2| |s2 m2 e2]; simpl;
    try (split; [discriminate | discriminate]);
    try (split; reflexivity).
  - rewrite Bool.eqb_true_iff. split; congruence.
  - rewrite Bool.eqb_true_iff. split; congruence.
  - rewrite !andb_true_iff, Bool.eqb_true_iff, Pos.eqb_eq, Z.eqb_eq.
    split; [intros [[-> ->] ->]; reflexivity | intros [= -> -> ->]; auto].
Qed.

Lemma strict_equals_spec a b :
  strict_equals a b = true <-> reference_or_scalar_equal a b.
Proof.
  unfold reference_or_scalar_equal, is_NaN, NaN.
  destruct a as [| |b1|n1|s1|i1|r1], b as [| |b2|n2|s2|i2|r2]; simpl;
    try (split; [discriminate | intros [[? _]|(?&?&?&?)]; discriminate]);
    try (split; [intros _; left; split; [reflexivity | discriminate] | reflexivity]).
  - rewrite Bool.eqb_true_iff. split.
    + intros ->. left. split; [reflexivity | discriminate].
    + intros [[[= ->] _]|(?&?&?&?)]; [reflexivity | discriminate].
  - split.
    + destruct n1 as [s1|s1| |s1 m1 e1], n2 as [s2|s2| |s2 m2 e2]; simpl;
        try discriminate.
      * intros _. right. eauto.
      * rewrite Bool.eqb_true_iff. intros ->. left. split; [reflexivity | discriminate].
      * intros H. apply (same_number_eq (S754_finite s1 m1 e1) (S754_finite s2 m2 e2)) in H.
        left. split; [congruence | discriminate].
    + intros [[[= ->] Hn]|(s1 & s2 & [= ->] & [= ->])]; [| reflexivity].
      destruct n2 as [s|s| |s m e]; simpl.
      * reflexivity.
      * apply Bool.eqb_reflx.
      * exfalso. apply Hn. reflexivity.
      * apply (same_number_eq (S754_finite s m e) (S754_finite s m e)). reflexivity.
  - rewrite String.eqb_eq. split.
    + intros ->. left. split; [reflexivity | discriminate].
    + intros [[[= ->] _]|(?&?&?&?)]; [reflexivity | discriminate].
  - rewrite Nat.eqb_eq. split.
    + intros ->. left. split; [reflexivity | discriminate].
    + intros [[[= ->] _]|(?&?&?&?)]; [reflexivity | discriminate].
  - rewrite Nat.eqb_eq. split.
    + intros ->. left. split; [reflexivity | discriminate].
    + intros [[[= ->] _]|(?&?&?&?)]; [reflexivity | discriminate].
Qed.

(** [a !== a] holds of NaN only. *)
Lemma self_not_equal_iff_NaN a : strict_not_equals a a = true <-> is_NaN a.
Proof.
  unfold strict_not_equals, is_NaN, NaN. rewrite negb_true_iff.
  destruct a as [| |b|n|s|i|r]; simpl;
    try (split; [discriminate | discriminate]).
  - rewrite Bool.eqb_reflx. split; discriminate.
  - destruct n as [s|s| |s m e]; simpl.
    + split; discriminate.
    + rewrite Bool.eqb_reflx. split; discriminate.
    + split; reflexivity.
    + rewrite Bool.eqb_reflx, Pos.eqb_refl, Z.eqb_refl. split; discriminate.
  - rewrite String.eqb_refl. split; discriminate.
  - rewrite Nat.eqb_refl. split; discriminate.
  - rewrite Nat.eqb_refl. split; discriminate.
Qed.

Lemma isDifferent_false_iff a b :
  isDifferent a b = false <->
  reference_or_scalar_equal a b \/ (is_NaN a /\ is_NaN b).
Proof.
  unfold isDifferent.
  rewrite andb_false_iff, negb_false_iff, andb_true_iff.
  rewrite !self_not_equal_iff_NaN.
  unfold strict_not_equals. rewrite negb_false_iff, strict_equals_spec.
  tauto.
Qed.

Lemma reference_or_scalar_equal_sym a b :
  reference_or_scalar_equal a b -> reference_or_scalar_equal b a.
Proof.
  intros [[-> Hn]|(s1 & s2 & -> & ->)].
  - left. split; [reflexivity | assumption].
  - right. eauto.
Qed.

Lemma strict_equals_sym a b : strict_equals a b = strict_equals b a.
Proof.
  apply eq_true_iff_eq. rewrite !strict_equals_spec.
  split; apply reference_or_scalar_equal_sym.
Qed.

(** C5.  [isDifferent(a, b)] is [false] exactly when [a] and [b] are
    reference/scalar-equal or both NaN, and [true] for every other
    pair, a NaN against anything that is not NaN included; the four
    examples of the specification evaluate as it says. *)
Theorem isDifferent_spec :
  (forall a b,
      isDifferent a b = false <->
      reference_or_scalar_equal a b \/ (is_NaN a /\ is_NaN b)) /\
  (forall a b,
      isDifferent a b = true <->
      ~ (reference_or_scalar_equal a b \/ (is_NaN a /\ is_NaN b))) /\
  (forall b, ~ is_NaN b ->
      isDifferent NaN b = true /\ isDifferent b NaN = true) /\
  isDifferent NaN NaN = false /\
  isDifferent (number 1) (number 1) = false /\
  isDifferent (number 1) (number 2) = true /\
  isDifferent NaN (number 1) = true.
Proof.
  assert (Htrue : forall a b,
             isDifferent a b = true <->
             ~ (reference_or_scalar_equal a b \/ (is_NaN a /\ is_NaN b))).
  { intros a b. rewrite <- isDifferent_false_iff.
    destruct (isDifferent a b); split; congruence. }
  split; [exact isDifferent_false_iff |].
  split; [exact Htrue |].
  split; [| repeat split; reflexivity].
  intros b Hb. split; apply Htrue.
  - intros [[[<- Hn]|(s1 & s2 & [=] & _)]|[_ Hb']];
      [apply Hn; reflexivity | apply Hb; exact Hb'].
  - intros [[[-> Hn]|(s1 & s2 & _ & [=])]|[Hb' _]];
      [apply Hn; reflexivity | apply Hb; exact Hb'].
Qed.

(** C9.  [isDifferent] is symmetric. *)
Theorem isDifferent_sym a b : isDifferent a b = isDifferent b a.
Proof.
  unfold isDifferent, strict_not_equals.
  rewrite (strict_equals_sym a b), (andb_comm (negb (strict_equals a a))).
  reflexivity.
Qed.

End IsDifferent.

(** ** The injector location codec *)

Section Codec.

Context {flags : RelativeInjectorLocationFlags}.

Lemma ToInt32_small z : - 2 ^ 31 <= z < 2 ^ 31 -> ToInt32 z = z.
Proof.
  intros Hz. unfold ToInt32. rewrite Z.mod_small; lia.
Qed.

Lemma shift_count_small n : 0 <= n < 32 -> shift_count n = n.
Proof. intros Hn. unfold shift_count. apply Z.mod_small. exact Hn. Qed.

(** Disjoint bit fields: nothing of [hi << s] is below bit [s]. *)
Lemma lor_shiftl_bounds lo hi s k :
  0 <= s -> 0 <= k -> 0 <= lo < 2 ^ s -> 0 <= hi < 2 ^ k ->
  0 <= Z.lor lo (Z.shiftl hi s) < 2 ^ (s + k).
Proof.
  intros Hs Hk Hlo Hhi.
  assert (Hsh : 0 <= Z.shiftl hi s) by (apply Z.shiftl_nonneg; lia).
  split; [apply Z.lor_nonneg; lia |].
  destruct (Z.eq_dec (Z.lor lo (Z.shiftl hi s)) 0) as [->|Hnz].
  { apply Z.pow_pos_nonneg; lia. }
  assert (Hpos : 0 < Z.lor lo (Z.shiftl hi s)).
  { assert (0 <= Z.lor lo (Z.shiftl hi s)) by (apply Z.lor_nonneg; lia). lia. }
  assert (Hsk : 0 < s + k).
  { destruct (Z.eq_dec (s + k) 0) as [Hz|Hz]; [| lia].
    assert (s = 0) by lia. assert (k = 0) by lia. subst s k.
    assert (lo = 0) by (change (2 ^ 0) with 1 in Hlo; lia).
    assert (hi = 0) by (change (2 ^ 0) with 1 in Hhi; lia).
    subst lo hi. exfalso. apply Hnz. reflexivity. }
  apply Z.log2_lt_pow2; [exact Hpos |].
  rewrite Z.log2_lor by lia.
  apply Z.max_lub_lt.
  - destruct (Z.eq_dec lo 0) as [->|Hlo0]; [exact Hsk |].
    assert (Z.log2 lo < s) by (apply Z.log2_lt_pow2; lia). lia.
  - destruct (Z.eq_dec hi 0) as [->|Hhi0].
    + rewrite Z.shiftl_0_l. exact Hsk.
    + rewrite Z.log2_shiftl by lia.
      assert (Z.log2 hi < k) by (apply Z.log2_lt_pow2; lia). lia.
Qed.

Lemma land_lor_shiftl_ones lo hi s w :
  0 <= w <= s -> 0 <= lo < 2 ^ w ->
  Z.land (Z.lor lo (Z.shiftl hi s)) (Z.ones w) = lo.
Proof.
  intros Hw Hlo.
  rewrite Z.land_ones by lia.
  rewrite <- (Z.mod_small lo (2 ^ w)) at 2 by lia.
  rewrite <- !Z.land_ones by lia.
  rewrite Z.land_lor_distr_l.
  replace (Z.land (Z.shiftl hi s) (Z.ones w)) with 0; [apply Z.lor_0_r |].
  symmetry. apply Z.bits_inj'. intros n Hn.
  rewrite Z.land_spec, Z.bits_0, Z.shiftl_spec by lia.
  destruct (Z_lt_dec n w) as [Hlt|Hge].
  - rewrite (Z.testbit_neg_r hi (n - s)) by lia. reflexivity.
  - rewrite Z.ones_spec_high by lia. apply andb_false_r.
Qed.

Lemma shiftr_lor_shiftl lo hi s :
  0 <= s -> 0 <= lo < 2 ^ s ->
  Z.shiftr (Z.lor lo (Z.shiftl hi s)) s = hi.
Proof.
  intros Hs Hlo.
  rewrite Z.shiftr_lor, Z.shiftr_shiftl_l, Z.sub_diag, Z.shiftl_0_r by lia.
  rewrite Z.shiftr_div_pow2, Z.div_small by lia.
  apply Z.lor_0_l.
Qed.

(** C6.  When the index mask is a block of [w] low-order ones lying
    below the shift, a scope index within the mask and a view offset
    that the 32-bit location can hold above the shift are both
    recovered from the packed location. *)
Theorem injector_location_roundtrip (w scopeIndex viewOffset : Z) :
  InjectorIndexMask = Z.ones w ->
  0 <= w <= ViewOffsetShift ->
  ViewOffsetShift < 32 ->
  0 <= scopeIndex <= InjectorIndexMask ->
  0 <= viewOffset < 2 ^ (31 - ViewOffsetShift) ->
  let location := encodeInjectorLocation scopeIndex viewOffset in
  getParentInjectorIndex location = scopeIndex /\
  getParentInjectorViewOffset location = viewOffset.
Proof.
  intros Hmask Hw Hs Hidx Hoff.
  set (s := ViewOffsetShift) in *.
  assert (Hpw : 2 ^ w <= 2 ^ s) by (apply Z.pow_le_mono_r; lia).
  assert (Hps : 2 ^ s <= 2 ^ 31) by (apply Z.pow_le_mono_r; lia).
  assert (Hidx' : 0 <= scopeIndex < 2 ^ w).
  { rewrite Hmask, Z.ones_equiv in Hidx. lia. }
  assert (Hm32 : - 2 ^ 31 <= Z.ones w < 2 ^ 31).
  { rewrite Z.ones_equiv. lia. }
  assert (Hand : bit_and scopeIndex InjectorIndexMask = scopeIndex).
  { unfold bit_and. rewrite Hmask, !ToInt32_small by lia.
    rewrite Z.land_ones by lia. apply Z.mod_small. exact Hidx'. }
  assert (Hbound : 0 <= Z.lor scopeIndex (Z.shiftl viewOffset s) < 2 ^ 31).
  { pose proof (lor_shiftl_bounds scopeIndex viewOffset s (31 - s)) as Hb.
    replace (s + (31 - s)) with 31 in Hb by lia.
    apply Hb; lia. }
  assert (Hshl : 0 <= Z.shiftl viewOffset s < 2 ^ 31).
  { split; [apply Z.shiftl_nonneg; lia |].
    rewrite Z.shiftl_mul_pow2 by lia.
    replace (2 ^ 31) with (2 ^ (31 - s) * 2 ^ s)
      by (rewrite <- Z.pow_add_r by lia; f_equal; lia).
    apply Z.mul_lt_mono_pos_r; lia. }
  assert (Hoff31 : - 2 ^ 31 <= viewOffset < 2 ^ 31).
  { assert (2 ^ (31 - s) <= 2 ^ 31) by (apply Z.pow_le_mono_r; lia). lia. }
  assert (Hloc : encodeInjectorLocation scopeIndex viewOffset
                 = Z.lor scopeIndex (Z.shiftl viewOffset s)).
  { unfold encodeInjectorLocation. rewrite Hand.
    unfold bit_or, shift_left. fold s.
    rewrite shift_count_small by lia.
    rewrite (ToInt32_small viewOffset) by lia.
    rewrite (ToInt32_small (Z.shiftl viewOffset s)) by lia.
    rewrite (ToInt32_small (Z.shiftl viewOffset s)) by lia.
    rewrite (ToInt32_small scopeIndex) by lia.
    reflexivity. }
  cbv zeta. rewrite Hloc. split.
  - unfold getParentInjectorIndex, bit_and.
    rewrite Hmask, !ToInt32_small by lia.
    apply land_lor_shiftl_ones; lia.
  - unfold getParentInjectorViewOffset, shift_right. fold s.
    rewrite shift_count_small, ToInt32_small by lia.
    apply shiftr_lor_shiftl; lia.
Qed.

(** The bound on the view offset is the best one: with a sixteen-bit
    shift, the offset [2 ^ 15] reaches the sign bit of the location,
    and [>>] brings it back as a negative number. *)
Remark viewOffset_sign_bit :
  @getParentInjectorViewOffset sample_flags
    (@encodeInjectorLocation sample_flags 0 (2 ^ 15)) = - 2 ^ 15.
Proof. reflexivity. Qed.

End Codec.

(** ** Views and descriptors *)

Section Views.

Context {layout : ViewLayout} {flags : RelativeInjectorLocationFlags}.

(** The loops, unfolded once. *)
Lemma getParentInjectorView_loop_eq viewOffset parentView :
  getParentInjectorView_loop viewOffset parentView =
  if Z_gt_dec viewOffset 0 then
    let! declarationView := get_index parentView DECLARATION_VIEW in
    getParentInjectorView_loop (viewOffset - 1) declarationView
  else Returns parentView.
Proof. exact (getParentInjectorView_loop_equation viewOffset parentView). Qed.

Lemma getParentInjectorTNode_loop_eq viewOffset parentView parentTNode :
  getParentInjectorTNode_loop viewOffset parentView parentTNode =
  if Z_gt_dec viewOffset 1 then
    let! declarationView := get_index parentView DECLARATION_VIEW in
    let! tHost := get_index declarationView T_HOST in
    getParentInjectorTNode_loop (viewOffset - 1) declarationView tHost
  else Returns parentTNode.
Proof.
  exact (getParentInjectorTNode_loop_equation viewOffset parentView parentTNode).
Qed.

Lemma getParentInjectorView_loop_climbs n parentView :
  getParentInjectorView_loop (Z.of_nat n) parentView =
  declarationViewAncestor n parentView.
Proof.
  revert parentView. induction n as [|n IH]; intros parentView;
    rewrite getParentInjectorView_loop_eq.
  - reflexivity.
  - destruct (Z_gt_dec (Z.of_nat (S n)) 0) as [_|Hle]; [| lia].
    replace (Z.of_nat (S n) - 1) with (Z.of_nat n) by lia.
    cbn [declarationViewAncestor].
    destruct (get_index parentView DECLARATION_VIEW); simpl; auto.
Qed.

Lemma getParentInjectorView_loop_stops viewOffset parentView :
  viewOffset <= 0 ->
  getParentInjectorView_loop viewOffset parentView = Returns parentView.
Proof.
  intros Hle. rewrite getParentInjectorView_loop_eq.
  destruct (Z_gt_dec viewOffset 0); [lia | reflexivity].
Qed.

(** C7.  [getParentInjectorView] climbs the declaration-view chain as
    many times as the decoded view offset says and returns the view it
    reaches, whenever the chain is that long; with offset 0 it returns
    the start view. *)
Theorem getParentInjectorView_spec location startView :
  (forall reached,
      declarationViewAncestor
        (Z.to_nat (getParentInjectorViewOffset location)) startView
      = Returns reached ->
      getParentInjectorView location startView = Returns reached) /\
  (getParentInjectorViewOffset location = 0 ->
   getParentInjectorView location startView = Returns startView).
Proof.
  unfold getParentInjectorView. split.
  - intros reached Hreached.
    destruct (Z_le_gt_dec (getParentInjectorViewOffset location) 0) as [Hle|Hgt].
    + rewrite getParentInjectorView_loop_stops by exact Hle.
      replace (Z.to_nat (getParentInjectorViewOffset location)) with 0%nat in Hreached
        by lia.
      exact Hreached.
    + rewrite <- (Z2Nat.id (getParentInjectorViewOffset location)) at 1 by lia.
      rewrite getParentInjectorView_loop_climbs. exact Hreached.
  - intros ->. apply getParentInjectorView_loop_stops. lia.
Qed.

(** The same, without the assumption on the chain: where the chain
    ends early, the function fails as the climb does. *)
Lemma getParentInjectorView_climbs location startView :
  getParentInjectorView location startView =
  declarationViewAncestor
    (Z.to_nat (getParentInjectorViewOffset location)) startView.
Proof.
  unfold getParentInjectorView.
  destruct (Z_le_gt_dec (getParentInjectorViewOffset location) 0) as [Hle|Hgt].
  - rewrite getParentInjectorView_loop_stops by exact Hle.
    replace (Z.to_nat (getParentInjectorViewOffset location)) with 0%nat by lia.
    reflexivity.
  - rewrite <- (Z2Nat.id (getParentInjectorViewOffset location)) at 1 by lia.
    apply getParentInjectorView_loop_climbs.
Qed.

(** C8.  [getLViewParent] returns the [PARENT] slot of the raw parent
    when the raw parent is a Container Record, and the raw parent
    itself otherwise. *)
Theorem getLViewParent_spec (slots : list any) :
  let rawParent := default Undefined (slots !! PARENT) in
  (forall items,
      rawParent = Arr items -> length items = LCONTAINER_LENGTH ->
      getLViewParent (Arr slots) = Returns (default Undefined (items !! PARENT))) /\
  (~ is_container_record rawParent ->
   getLViewParent (Arr slots) = Returns rawParent).
Proof.
  intros rawParent. unfold getLViewParent. cbn [get_index Js.bind].
  fold rawParent. split.
  - intros items -> Hlen. cbn. rewrite Hlen, Nat.eqb_refl. reflexivity.
  - intros Hnot. destruct rawParent as [| | | | |items]; try reflexivity.
    cbn. destruct (Nat.eqb_spec (length items) LCONTAINER_LENGTH) as [Hlen|_];
      [| reflexivity].
    exfalso. apply Hnot. exists items. split; [reflexivity | exact Hlen].
Qed.

(** Reading a slot fails on [null] and [undefined] only, whatever the
    slot. *)
Lemma get_index_fails value i j :
  get_index value i = TypeError -> get_index value j = TypeError.
Proof. destruct value; simpl; congruence. Qed.

Lemma declarationViewAncestor_fails n view :
  get_index view T_HOST = TypeError ->
  (let! reached := declarationViewAncestor n view in get_index reached T_HOST)
  = TypeError.
Proof.
  intros Hfail. destruct n as [|n]; cbn.
  - exact Hfail.
  - rewrite (get_index_fails _ _ DECLARATION_VIEW Hfail). reflexivity.
Qed.

Lemma getParentInjectorTNode_loop_climbs n parentView parentTNode :
  get_index parentView T_HOST = Returns parentTNode ->
  getParentInjectorTNode_loop (1 + Z.of_nat n) parentView parentTNode =
  let! reached := declarationViewAncestor n parentView in
  get_index reached T_HOST.
Proof.
  revert parentView parentTNode.
  induction n as [|n IH]; intros parentView parentTNode Hhost;
    rewrite getParentInjectorTNode_loop_eq.
  - cbn. exact (eq_sym Hhost).
  - destruct (Z_gt_dec (1 + Z.of_nat (S n)) 1) as [_|Hle]; [| lia].
    replace (1 + Z.of_nat (S n) - 1) with (1 + Z.of_nat n) by lia.
    cbn [declarationViewAncestor].
    destruct (get_index parentView DECLARATION_VIEW) as [declarationView|];
      cbn [Js.bind]; [| reflexivity].
    destruct (get_index declarationView T_HOST) as [tHost|] eqn:Hd;
      cbn [Js.bind].
    + apply IH. exact Hd.
    + symmetry. apply declarationViewAncestor_fails. exact Hd.
Qed.

Lemma getParentInjectorTNode_cross_view location startView startTNode :
  no_usable_parent_scope startTNode ->
  getParentInjectorTNode location startView startTNode =
  let! tHost := get_index startView T_HOST in
  getParentInjectorTNode_loop (getParentInjectorViewOffset location) startView tHost.
Proof.
  unfold no_usable_parent_scope, getParentInjectorTNode.
  destruct (parent startTNode) as [parentTNode|]; [| reflexivity].
  intros ->. reflexivity.
Qed.

(** C1.  With a decoded view offset [n >= 1] and a start descriptor
    whose static parent has no usable scope index,
    [getParentInjectorTNode] climbs the declaration-view chain [n - 1]
    times from the start view and returns the [T_HOST] slot of the
    view it reaches. *)
Theorem getParentInjectorTNode_climbs location startView startTNode n :
  getParentInjectorViewOffset location = n ->
  1 <= n ->
  no_usable_parent_scope startTNode ->
  getParentInjectorTNode location startView startTNode =
  let! reached := declarationViewAncestor (Z.to_nat (n - 1)) startView in
  get_index reached T_HOST.
Proof.
  intros Hoff Hn Hparent.
  rewrite getParentInjectorTNode_cross_view by exact Hparent.
  rewrite Hoff.
  destruct (get_index startView T_HOST) as [tHost|] eqn:Hhost; cbn [Js.bind].
  - replace n with (1 + Z.of_nat (Z.to_nat (n - 1))) at 1 by lia.
    apply getParentInjectorTNode_loop_climbs. exact Hhost.
  - symmetry. apply declarationViewAncestor_fails. exact Hhost.
Qed.


(** *** The fast path of [getParentInjectorTNode] *)

(** The fast path reads neither the location nor the view. *)
Lemma getParentInjectorTNode_fast_path location startView startTNode parentTNode :
  parent startTNode = Some parentTNode ->
  injectorIndex parentTNode <> -1 ->
  getParentInjectorTNode location startView startTNode =
  Returns (TNodeObj
    (getParentInjectorTNode_static (injectorIndex parentTNode) parentTNode)).
Proof.
  intros Hparent Hidx. unfold getParentInjectorTNode. rewrite Hparent.
  destruct (Z.eqb_spec (injectorIndex parentTNode) (-1)) as [Heq|_];
    [contradiction | reflexivity].
Qed.

(** The loop tests the scope index of the descriptor it stands on, not
    that of the parent it is about to move to: it stops one descriptor
    above the one the specification describes, when there is one. *)
Lemma getParentInjectorTNode_static_one_above tNode :
  getParentInjectorTNode_static (injectorIndex tNode) tNode =
  match parent (collapsed_scope_owner tNode) with
  | Some above => above
  | None => collapsed_scope_owner tNode
  end.
Proof.
  revert tNode. fix IH 1. intros [i idx [further|] nxt]; cbn.
  - rewrite Z.eqb_refl.
    destruct (Z.eqb_spec (injectorIndex further) idx) as [Heq|Hne].
    + rewrite <- Heq. apply IH.
    + destruct further as [i' idx' [above|] nxt']; cbn in *.
      * destruct (Z.eqb_spec idx idx') as [Heq|_]; [congruence | reflexivity].
      * reflexivity.
  - reflexivity.
Qed.

(** *** [getLastRootElementFromView] *)

(** The function returns the slot of the last root descriptor as it
    is stored. *)
Lemma getLastRootElementFromView_raw_slot lView tView child :
  get_index lView TVIEW = Returns (TViewObj tView) ->
  firstChild tView = Some child ->
  getLastRootElementFromView lView =
  get_number_index lView (index (lastSibling child)).
Proof.
  intros HtView Hchild. unfold getLastRootElementFromView.
  rewrite HtView. cbn [Js.bind]. rewrite Hchild. reflexivity.
Qed.

(** [lastSibling] ends on the descriptor without a next sibling. *)
Lemma lastSibling_is_last child : next (lastSibling child) = None.
Proof.
  revert child. fix IH 1. intros [i idx p [sibling|]]; cbn.
  - apply IH.
  - reflexivity.
Qed.

End Views.

(** ** Behaviour at the inputs where the code and the specification part *)

(** C2.  The start descriptor's static parent has scope index 12 and
    its own parent has scope index 3.  The specification stops on the
    static parent, whose scope index differs from its parent's;
    [getParentInjectorTNode] returns the grandparent. *)
Theorem getParentInjectorTNode_fast_path_overshoots
    {layout : ViewLayout} {flags : RelativeInjectorLocationFlags}
    (location : Z) (startView : any) :
  getParentInjectorTNode location startView sample_start
  = Returns (TNodeObj sample_grandparent) /\
  collapsed_scope_owner sample_parent = sample_parent /\
  injectorIndex sample_grandparent <> injectorIndex sample_parent.
Proof.
  split; [reflexivity |]. split; [reflexivity |]. discriminate.
Qed.

(** C3.  The only root descriptor of the view has its slot wrapped in a
    container record around render node 7.  [getLastRootElementFromView]
    returns the container record; [getNativeByTNode] on the same
    descriptor and view returns the render node. *)
Theorem getLastRootElementFromView_returns_wrapper :
  let getLast := @getLastRootElementFromView sample_layout in
  let getNative := @getNativeByTNode sample_layout in
  getLast sample_wrapped_view = Returns (sample_container (RNode 7) Null) /\
  isArray (sample_container (RNode 7) Null) = true /\
  ~ is_render_node (sample_container (RNode 7) Null) /\
  getNative sample_root sample_wrapped_view = Returns (RNode 7).
Proof.
  split; [reflexivity |]. split; [reflexivity |]. split; [| reflexivity].
  intros [id Hid]. discriminate Hid.
Qed.

(** ** [flatten] *)

Section Flatten.

Implicit Types (h : store) (s : state) (ts cs : list nested) (acc : list item).

Lemma list_sum_nodes_app ts1 ts2 :
  list_sum (map nodes (ts1 ++ ts2)) =
  (list_sum (map nodes ts1) + list_sum (map nodes ts2))%nat.
Proof. rewrite map_app. apply list_sum_app. Qed.

Lemma list_sum_nodes_cons t ts :
  list_sum (map nodes (t :: ts)) = (nodes t + list_sum (map nodes ts))%nat.
Proof. reflexivity. Qed.

Lemma list_sum_wrappers_app ts1 ts2 :
  list_sum (map wrappers (ts1 ++ ts2)) =
  (list_sum (map wrappers ts1) + list_sum (map wrappers ts2))%nat.
Proof. rewrite map_app. apply list_sum_app. Qed.

Lemma unprocessed_head s ts t rest :
  unprocessed s ts = t :: rest ->
  ts !! st_i s = Some t /\ rest = drop (S (st_i s)) ts.
Proof.
  unfold unprocessed. intros Hdrop.
  assert (Hlookup : ts !! st_i s = Some t).
  { replace (st_i s) with (st_i s + 0)%nat by lia.
    rewrite <- lookup_drop, Hdrop. reflexivity. }
  split; [exact Hlookup |].
  rewrite (drop_S _ _ _ Hlookup) in Hdrop. congruence.
Qed.

(** Unwrapping a non-empty array: the working list is rebound to a
    new array, the elements of the unwrapped array followed by the
    rest of the old working list, and [i] is reset. *)
Lemma flatten_body_unwrap h0 s ts (list : Datatypes.list item) a x sub :
  working_list h0 s ts ->
  st_store s !! st_list s = Some list ->
  list !! st_i s = Some (ArrayRef a) ->
  st_store s !! a = Some (x :: sub) ->
  exists cs rest s',
    unprocessed s ts = Nested cs :: rest /\
    flatten_body s = Some s' /\
    st_i s' = 0%nat /\
    st_result s' = st_result s /\
    st_store s' = (st_store s ++ [drop (st_i s + 1) list])
                  ++ [(x :: sub) ++ drop (st_i s + 1) list] /\
    st_list s' = S (length (st_store s)) /\
    working_list h0 s' (cs ++ rest).
Proof.
  destruct s as [h l i r]. cbn.
  intros (Hext & list' & Hl' & Hrep) Hl Hit Ha. cbn in *.
  assert (list' = list) as -> by congruence.
  destruct (Forall2_lookup_l _ _ _ _ _ Hrep Hit) as (t & Ht & Hrepr).
  inversion Hrepr as [|a' sub' cs Ha' Hsub]; subst.
  rewrite (Hext _ _ Ha') in Ha. injection Ha as ->.
  exists cs, (drop (S i) ts).
  eexists (mkState _ _ 0 r).
  split; [unfold unprocessed; cbn; apply drop_S; exact Ht |].
  split.
  { unfold flatten_body. cbn. rewrite Hl. cbn. rewrite Hit. cbn.
    rewrite (Hext _ _ Ha'). cbn.
    unfold Array_slice. rewrite Hl. cbn.
    unfold Array_concat.
    rewrite (lookup_app_l_Some _ _ _ _ (Hext _ _ Ha')). cbn.
    rewrite list_lookup_middle by reflexivity. cbn. reflexivity. }
  cbn. repeat split.
  - rewrite length_app. cbn. lia.
  - intros a0 elems Helems.
    apply lookup_app_l_Some, lookup_app_l_Some. auto.
  - eexists. split; [apply list_lookup_middle; reflexivity |].
    rewrite app_comm_cons. apply Forall2_app; [exact Hsub |].
    replace (i + 1)%nat with (S i) by lia.
    apply Forall2_drop. exact Hrep.
Qed.

(** One iteration.  A plain item is appended to [result]; an array is
    replaced, in the unprocessed part, by its elements. *)
Lemma flatten_body_invariant h0 s ts acc t rest :
  loop_invariant h0 s ts acc ->
  unprocessed s ts = t :: rest ->
  exists s' ts' acc',
    flatten_body s = Some s' /\
    loop_invariant h0 s' ts' acc' /\
    st_result s' = st_result s /\
    match t with
    | Leaf v => acc' = acc ++ [Plain v] /\ unprocessed s' ts' = rest
    | Nested cs => acc' = acc /\ unprocessed s' ts' = cs ++ rest
    end.
Proof.
  destruct s as [h l i r].
  intros ((Hext & list & Hl & Hrep) & Hr & Hfresh & Hne) Hun.
  apply unprocessed_head in Hun as [Ht ->]. cbn in *.
  destruct (Forall2_lookup_r _ _ _ _ _ Hrep Ht) as (it & Hit & Hrepr).
  unfold flatten_body. cbn. rewrite Hl. cbn. rewrite Hit. cbn.
  inversion Hrepr as [v|a sub cs Ha Hsub]; subst.
  - (* a plain item *)
    exists (mkState (Array_push h r (Plain v)) l (i + 1) r), ts, (acc ++ [Plain v]).
    split; [reflexivity |]. split; [| split; [reflexivity |]].
    + unfold loop_invariant, working_list, Array_push. cbn.
      repeat split; try assumption.
      * intros a elems Helems.
        rewrite list_lookup_alter_ne; [auto |].
        intros <-. congruence.
      * exists list. split; [| exact Hrep].
        rewrite list_lookup_alter_ne by congruence. exact Hl.
      * rewrite list_lookup_alter_eq, Hr. reflexivity.
    + split; [reflexivity |]. unfold unprocessed. cbn.
      f_equal. lia.
  - (* an array *)
    rewrite (Hext _ _ Ha). cbn.
    destruct sub as [|x sub'].
    + (* [item.length === 0] *)
      apply Forall2_nil_inv_l in Hsub as ->.
      exists (mkState h l (i + 1) r), ts, acc.
      split; [reflexivity |]. split; [| split; [reflexivity |]].
      * unfold loop_invariant, working_list. cbn. eauto 10.
      * split; [reflexivity |]. unfold unprocessed. cbn.
        f_equal. lia.
    + (* [item.length > 0] *)
      destruct (flatten_body_unwrap h0 (mkState h l i r) ts list a x sub')
        as (cs' & rest' & s' & Hun' & Hbody & Hi & Hres & Hstore & Hlist & Hwl);
        [unfold working_list; eauto | exact Hl | exact Hit | auto |].
      unfold unprocessed in Hun'. cbn in Hun', Hres, Hstore, Hlist.
      rewrite (drop_S _ _ _ Ht) in Hun'. injection Hun' as <- <-.
      exists s', (cs ++ drop (S i) ts), acc.
      split.
      { unfold flatten_body in Hbody. cbn in Hbody.
        rewrite Hl in Hbody. cbn in Hbody. rewrite Hit in Hbody. cbn in Hbody.
        rewrite (Hext _ _ Ha) in Hbody. exact Hbody. }
      split; [| split; [exact Hres |]].
      * unfold loop_invariant. split; [exact Hwl |].
        rewrite Hres, Hstore, Hlist.
        split; [| split].
        -- apply lookup_app_l_Some, lookup_app_l_Some. exact Hr.
        -- exact Hfresh.
        -- apply lookup_lt_Some in Hr. lia.
      * split; [reflexivity |]. unfold unprocessed. rewrite Hi. reflexivity.
Qed.

Lemma flatten_loop_S fuel s (list : Datatypes.list item) :
  st_store s !! st_list s = Some list ->
  flatten_loop (S fuel) s =
  if (st_i s <? length list)%nat
  then s' ← flatten_body s; flatten_loop fuel s'
  else Some s.
Proof. intros Hl. cbn [flatten_loop]. rewrite Hl. reflexivity. Qed.

(** With more iterations allowed than the unprocessed part has nodes,
    the loop ends, and [result] then holds the leaves of the
    unprocessed part after what it held before. *)
Lemma flatten_loop_invariant h0 fuel :
  forall s ts acc,
    loop_invariant h0 s ts acc ->
    (list_sum (map nodes (unprocessed s ts)) < fuel)%nat ->
    exists s',
      flatten_loop fuel s = Some s' /\
      st_result s' = st_result s /\
      st_store s' !! st_result s =
        Some (acc ++ (Plain <$> flat_map leaves (unprocessed s ts))) /\
      (forall a elems, h0 !! a = Some elems -> st_store s' !! a = Some elems).
Proof.
  induction fuel as [|fuel IH]; intros s ts acc Hinv Hfuel; [lia |].
  destruct (unprocessed s ts) as [|t rest] eqn:Hun.
  - (* [i >= list.length] *)
    destruct Hinv as ((Hext & list & Hl & Hrep) & Hr & Hfresh & Hne).
    exists s. rewrite (flatten_loop_S _ _ _ Hl).
    assert (Hlen : (length list <= st_i s)%nat).
    { rewrite (Forall2_length _ _ _ Hrep).
      unfold unprocessed in Hun.
      apply (f_equal length) in Hun. rewrite length_drop in Hun.
      cbn in Hun. lia. }
    destruct (Nat.ltb_spec (st_i s) (length list)) as [Hlt|_]; [lia |].
    rewrite app_nil_r. auto.
  - (* one more iteration *)
    destruct (flatten_body_invariant _ _ _ _ _ _ Hinv Hun)
      as (s' & ts' & acc' & Hbody & Hinv' & Hres & Hstep).
    assert (Hlt : (st_i s < length (default [] (st_store s !! st_list s)))%nat).
    { destruct Hinv as ((_ & list & Hl & Hrep) & _). rewrite Hl. cbn.
      rewrite (Forall2_length _ _ _ Hrep).
      apply unprocessed_head in Hun as [Ht _].
      apply lookup_lt_Some in Ht. exact Ht. }
    assert (Hunfold : flatten_loop (S fuel) s = flatten_loop fuel s').
    { destruct Hinv as ((_ & list & Hl & _) & _). rewrite Hl in Hlt. cbn in Hlt.
      rewrite (flatten_loop_S _ _ _ Hl).
      destruct (Nat.ltb_spec (st_i s) (length list)) as [_|Hge]; [| lia].
      rewrite Hbody. reflexivity. }
    rewrite Hunfold, <- Hres.
    destruct t as [v|cs]; destruct Hstep as [-> Hun'].
    + destruct (IH s' ts' _ Hinv') as (s'' & Hloop & Hres' & Hacc & Hext).
      { rewrite Hun'. rewrite list_sum_nodes_cons in Hfuel.
        cbn [nodes] in Hfuel. lia. }
      exists s''. rewrite Hun' in Hacc. cbn.
      rewrite <- app_assoc in Hacc. auto.
    + destruct (IH s' ts' _ Hinv') as (s'' & Hloop & Hres' & Hacc & Hext).
      { rewrite Hun', list_sum_nodes_app. rewrite list_sum_nodes_cons in Hfuel.
        cbn [nodes] in Hfuel. lia. }
      exists s''. rewrite Hun', flat_map_app in Hacc. cbn. auto.
Qed.

(** A bound that lets the loop end stays sufficient when raised. *)
Lemma flatten_loop_fuel_mono fuel fuel' s s' :
  flatten_loop fuel s = Some s' -> (fuel <= fuel')%nat ->
  flatten_loop fuel' s = Some s'.
Proof.
  revert fuel' s. induction fuel as [|fuel IH]; intros fuel' s; [discriminate |].
  intros Hloop Hle. destruct fuel' as [|fuel']; [lia |].
  destruct (st_store s !! st_list s) as [list|] eqn:Hl;
    [| cbn in Hloop; rewrite Hl in Hloop; discriminate].
  rewrite (flatten_loop_S fuel _ _ Hl) in Hloop.
  rewrite (flatten_loop_S fuel' _ _ Hl).
  destruct (st_i s <? length list)%nat; [| exact Hloop].
  destruct (flatten_body s) as [s1|]; [| discriminate].
  cbn in *. apply IH; [exact Hloop | lia].
Qed.

Lemma flatten_correct h list elems ts :
  h !! list = Some elems ->
  Forall2 (represents h) elems ts ->
  exists h' result,
    (forall fuel, (list_sum (map nodes ts) < fuel)%nat ->
                  flatten fuel h list = Some (h', result)) /\
    h' !! result = Some (Plain <$> flat_map leaves ts) /\
    h !! result = None /\
    (forall a arr, h !! a = Some arr -> h' !! a = Some arr).
Proof.
  intros Hlist Hrep.
  set (s0 := mkState (h ++ [[]]) list 0 (length h)).
  assert (Hinv : loop_invariant h s0 ts []).
  { unfold loop_invariant, working_list. cbn. repeat split.
    - intros a arr Ha. apply lookup_app_l_Some. exact Ha.
    - exists elems. split; [apply lookup_app_l_Some; exact Hlist | exact Hrep].
    - apply list_lookup_middle. reflexivity.
    - apply lookup_ge_None. lia.
    - apply lookup_lt_Some in Hlist. lia. }
  destruct (flatten_loop_invariant h (S (list_sum (map nodes ts))) s0 ts [] Hinv)
    as (s' & Hloop & Hres & Hacc & Hext).
  { change (unprocessed s0 ts) with ts. lia. }
  exists (st_store s'), (length h). repeat split.
  - intros fuel Hfuel. unfold flatten. cbn. fold s0.
    rewrite (flatten_loop_fuel_mono _ fuel _ _ Hloop) by lia.
    cbn. rewrite Hres. reflexivity.
  - exact Hacc.
  - apply lookup_ge_None. lia.
  - exact Hext.
Qed.

(** C4.  For a store in which the array [list] holds a finite nested
    sequence, [flatten] returns an array that the store did not have,
    which holds the leaves of the sequence, and only them, from left
    to right, and no array of the store is changed.  On
    [[1, [2, [3, 4]], 5]] the result holds [[1, 2, 3, 4, 5]] and on
    [[[]]] it is empty. *)
Theorem flatten_spec :
  (forall h (list : nat) elems ts,
      h !! list = Some elems ->
      Forall2 (represents h) elems ts ->
      exists h' result,
        (forall fuel, (list_sum (map nodes ts) < fuel)%nat ->
                      flatten fuel h list = Some (h', result)) /\
        h' !! result = Some (Plain <$> flat_map leaves ts) /\
        h !! result = None /\
        (forall a arr, h !! a = Some arr -> h' !! a = Some arr)) /\
  (exists h',
      flatten 9 sample_store 2 = Some (h', 3%nat) /\
      h' !! 3%nat = Some (Plain ∘ number <$> [1; 2; 3; 4; 5])) /\
  (exists h',
      flatten 3 [[]; [ArrayRef 0]] 1 = Some (h', 2%nat) /\
      h' !! 2%nat = Some []).
Proof.
  split; [exact flatten_correct |].
  split; eexists; split; reflexivity.
Qed.

(** C10.  [flatten] terminates on every finite nested sequence, and
    each unwrapping of a non-empty array, although it rebinds the
    working list to a concatenation, leaves strictly fewer array
    wrappers in the unprocessed part of the working list. *)
Theorem flatten_terminates :
  (forall h (list : nat) elems ts,
      h !! list = Some elems ->
      Forall2 (represents h) elems ts ->
      exists fuel out, flatten fuel h list = Some out) /\
  (forall h0 s ts (list : Datatypes.list item) a elems,
      working_list h0 s ts ->
      st_store s !! st_list s = Some list ->
      list !! st_i s = Some (ArrayRef a) ->
      st_store s !! a = Some elems ->
      elems <> [] ->
      exists s' ts',
        flatten_body s = Some s' /\
        working_list h0 s' ts' /\
        st_store s' !! st_list s' = Some (elems ++ drop (st_i s + 1) list) /\
        (list_sum (map wrappers (unprocessed s' ts'))
         < list_sum (map wrappers (unprocessed s ts)))%nat).
Proof.
  split.
  - intros h list elems ts Hlist Hrep.
    destruct (flatten_correct h list elems ts Hlist Hrep)
      as (h' & result & Hrun & _).
    exists (S (list_sum (map nodes ts))), (h', result). apply Hrun. lia.
  - intros h0 s ts list a elems Hwl Hl Hit Ha Hne.
    destruct elems as [|x sub]; [contradiction |].
    destruct (flatten_body_unwrap h0 s ts list a x sub Hwl Hl Hit Ha)
      as (cs & rest & s' & Hun & Hbody & Hi & _ & Hstore & Hlist & Hwl').
    exists s', (cs ++ rest).
    split; [exact Hbody |]. split; [exact Hwl' |]. split.
    + rewrite Hstore, Hlist. apply list_lookup_middle.
      rewrite length_app. cbn. lia.
    + rewrite Hun. unfold unprocessed. rewrite Hi.
      change (drop 0 (cs ++ rest)) with (cs ++ rest).
      rewrite list_sum_wrappers_app.
      change (list_sum (map wrappers (Nested cs :: rest)))
        with (S (list_sum (map wrappers cs)) + list_sum (map wrappers rest))%nat.
      lia.
Qed.

End Flatten.

(** ** The theorems at sample inputs *)

Section Samples.

Lemma sample_store_represents :
  Forall2 (represents sample_store)
          [Plain (number 1); ArrayRef 1; Plain (number 5)] sample_nested.
Proof.
  unfold sample_nested.
  repeat first
    [ apply represents_leaf
    | eapply represents_array; [reflexivity |]
    | constructor ].
Qed.

Lemma isDifferent_spec_witness :
  ~ is_NaN (number 1) /\
  isDifferent NaN (number 1) = true /\ isDifferent (number 1) NaN = true.
Proof.
  split; [discriminate |].
  apply (proj1 (proj2 (proj2 isDifferent_spec)) (number 1)). discriminate.
Defined.

Lemma injector_location_roundtrip_witness :
  let location := @encodeInjectorLocation sample_flags 5 2 in
  location = 131077 /\
  @getParentInjectorIndex sample_flags location = 5 /\
  @getParentInjectorViewOffset sample_flags location = 2.
Proof.
  split; [reflexivity |].
  apply (@injector_location_roundtrip sample_flags 15 5 2);
    [reflexivity | cbn; lia | cbn; lia | cbn; lia | cbn; lia].
Defined.

Lemma getParentInjectorView_spec_witness :
  @getParentInjectorView sample_layout sample_flags 65536 sample_inner_view
  = Returns sample_outer_view.
Proof.
  apply (proj1 (@getParentInjectorView_spec sample_layout sample_flags
                  65536 sample_inner_view)).
  reflexivity.
Defined.

Lemma getLViewParent_spec_witness :
  @getLViewParent sample_layout sample_inner_view = Returns sample_outer_view.
Proof.
  unfold sample_inner_view, sample_view.
  apply (proj1 (@getLViewParent_spec sample_layout _)
               ([Null; Null; Null; sample_outer_view] ++ replicate 4 Null));
    reflexivity.
Defined.

Lemma getParentInjectorTNode_climbs_witness :
  @getParentInjectorTNode sample_layout sample_flags
    131072 sample_inner_view sample_root
  = Returns (TNodeObj sample_host).
Proof.
  rewrite (@getParentInjectorTNode_climbs sample_layout sample_flags
             131072 sample_inner_view sample_root 2);
    [reflexivity | reflexivity | lia | exact I].
Defined.

Lemma flatten_spec_witness :
  exists h' result,
    flatten 9 sample_store 2 = Some (h', result) /\
    h' !! result = Some (Plain ∘ number <$> [1; 2; 3; 4; 5]) /\
    sample_store !! result = None /\
    h' !! 2%nat = sample_store !! 2%nat.
Proof.
  destruct (proj1 flatten_spec sample_store 2%nat _ sample_nested
                  eq_refl sample_store_represents)
    as (h' & result & Hrun & Hleaves & Hnew & Hkept).
  exists h', result. split; [apply Hrun; cbn; lia |].
  split; [exact Hleaves |]. split; [exact Hnew |].
  apply Hkept. reflexivity.
Defined.

Lemma flatten_terminates_witness :
  (exists fuel out, flatten fuel sample_store 2 = Some out) /\
  (exists s' ts',
      flatten_body (mkState sample_store 2 1 3) = Some s' /\
      (list_sum (map wrappers (unprocessed s' ts'))
       < list_sum (map wrappers
                       (unprocessed (mkState sample_store 2 1 3) sample_nested)))%nat).
Proof.
  split.
  - exact (proj1 flatten_terminates sample_store 2%nat _ sample_nested
                 eq_refl sample_store_represents).
  - destruct (proj2 flatten_terminates sample_store
                    (mkState sample_store 2 1 3) sample_nested
                    [Plain (number 1); ArrayRef 1; Plain (number 5)] 1%nat
                    [Plain (number 2); ArrayRef 0])
      as (s' & ts' & Hbody & _ & _ & Hless).
    + split; [auto |]. eexists. split; [reflexivity |].
      exact sample_store_represents.
    + reflexivity.
    + reflexivity.
    + reflexivity.
    + discriminate.
    + exists s', ts'. split; assumption.
Defined.

End Samples.

(* ===================================================================== *)
(** * Part IV: further properties of the code *)
(* ===================================================================== *)

(** ** [isDifferent] *)

Section IsDifferentMore.

Lemma isDifferent_refl a : isDifferent a a = false.
Proof.
  apply isDifferent_false_iff.
  destruct (strict_not_equals a a) eqn:Hself.
  - apply self_not_equal_iff_NaN in Hself. right. split; exact Hself.
  - left. apply strict_equals_spec.
    unfold strict_not_equals in Hself. apply negb_false_iff. exact Hself.
Qed.

(** X1.  "Not different" is reflexive and transitive: no value is
    different from itself, NaN included, and two values that are both
    not different from a third are not different from each other. *)
Theorem isDifferent_equivalence :
  (forall a, isDifferent a a = false) /\
  (forall a b c,
      isDifferent a b = false -> isDifferent b c = false ->
      isDifferent a c = false).
Proof.
  split; [exact isDifferent_refl |].
  intros a b c Hab Hbc.
  apply isDifferent_false_iff in Hab, Hbc. apply isDifferent_false_iff.
  unfold reference_or_scalar_equal, is_NaN in *.
  destruct Hab as [[[-> Ha]|(s1 & s2 & -> & ->)]|[-> ->]].
  - exact Hbc.
  - destruct Hbc as [[[<- _]|(s3 & s4 & _ & ->)]|[[=] _]]; left; right; eauto.
  - destruct Hbc as [[[<- Hn]|(s3 & s4 & [=] & _)]|[_ ->]].
    + exfalso. apply Hn. reflexivity.
    + right. split; reflexivity.
Qed.

(** X2.  [isDifferent] never coerces: two values of different types
    are different. *)
Theorem isDifferent_across_types a b :
  type_of a <> type_of b -> isDifferent a b = true.
Proof.
  intros Htype. destruct (isDifferent a b) eqn:Hdiff; [reflexivity |].
  exfalso. apply isDifferent_false_iff in Hdiff.
  unfold reference_or_scalar_equal, is_NaN in Hdiff.
  destruct Hdiff as [[[-> _]|(s1 & s2 & -> & ->)]|[-> ->]];
    apply Htype; reflexivity.
Qed.

(** X3.  [isDifferent] is the strict inequality [!==], except on a
    pair of NaN. *)
Theorem isDifferent_is_strict_inequality a b :
  ~ (is_NaN a /\ is_NaN b) -> isDifferent a b = strict_not_equals a b.
Proof.
  intros Hnan. unfold isDifferent.
  destruct (strict_not_equals a a) eqn:Ha; [| reflexivity].
  destruct (strict_not_equals b b) eqn:Hb; [| reflexivity].
  exfalso. apply Hnan. split; apply self_not_equal_iff_NaN; assumption.
Qed.

End IsDifferentMore.

(** ** [flatten] and [addAllToArray] *)

Section FlattenMore.

Implicit Types (h : store) (s : state) (ts : list nested).

(** A flat array stands for the sequence of its own elements. *)
Lemma represents_plain h (vs : list value) :
  Forall2 (represents h) (Plain <$> vs) (Leaf <$> vs).
Proof.
  induction vs as [|v vs IH]; cbn; constructor;
    [apply represents_leaf | exact IH].
Qed.

Lemma leaves_of_leaves (vs : list value) : flat_map leaves (Leaf <$> vs) = vs.
Proof. induction vs as [|v vs IH]; cbn; [reflexivity | f_equal; exact IH]. Qed.

Lemma nodes_of_leaves (vs : list value) :
  list_sum (map nodes (Leaf <$> vs)) = length vs.
Proof. induction vs as [|v vs IH]; cbn; [reflexivity | f_equal; exact IH]. Qed.

(** Two runs that both end give the same result, whatever their
    bounds. *)
Lemma flatten_bound_irrelevant fuel fuel' h (list : nat) out out' :
  flatten fuel h list = Some out -> flatten fuel' h list = Some out' ->
  out = out'.
Proof.
  unfold flatten. cbn.
  destruct (flatten_loop fuel _) as [s|] eqn:Hs; [| discriminate].
  destruct (flatten_loop fuel' _) as [s'|] eqn:Hs'; [| discriminate].
  cbn. intros [= <-] [= <-].
  apply (flatten_loop_fuel_mono _ (Nat.max fuel fuel')) in Hs; [| lia].
  apply (flatten_loop_fuel_mono _ (Nat.max fuel fuel')) in Hs'; [| lia].
  congruence.
Qed.

(** X4.  On an array without nested arrays, [flatten] returns a copy:
    a new array with the same elements. *)
Theorem flatten_flat_is_copy h (vs : list value) (list : nat) fuel :
  h !! list = Some (Plain <$> vs) ->
  (length vs < fuel)%nat ->
  exists h' result,
    flatten fuel h list = Some (h', result) /\
    h' !! result = Some (Plain <$> vs) /\
    result <> list /\
    h' !! list = Some (Plain <$> vs).
Proof.
  intros Hlist Hfuel.
  destruct (flatten_correct h list _ _ Hlist (represents_plain h vs))
    as (h' & result & Hrun & Hres & Hnew & Hkept).
  exists h', result.
  rewrite leaves_of_leaves in Hres. rewrite nodes_of_leaves in Hrun.
  repeat split; auto. congruence.
Qed.

(** X5.  [flatten] is idempotent: flattening its result gives an array
    with the same elements. *)
Theorem flatten_idempotent h (list : nat) elems ts :
  h !! list = Some elems ->
  Forall2 (represents h) elems ts ->
  exists fuel fuel' h' result h'' result',
    flatten fuel h list = Some (h', result) /\
    flatten fuel' h' result = Some (h'', result') /\
    h'' !! result' = h' !! result /\
    h'' !! result = h' !! result.
Proof.
  intros Hlist Hrep.
  destruct (flatten_correct h list _ _ Hlist Hrep)
    as (h' & result & Hrun & Hres & _ & _).
  destruct (flatten_correct h' result _ _ Hres
              (represents_plain h' (flat_map leaves ts)))
    as (h'' & result' & Hrun' & Hres' & _ & Hkept).
  rewrite leaves_of_leaves in Hres'.
  exists (S (list_sum (map nodes ts))),
         (S (list_sum (map nodes (Leaf <$> flat_map leaves ts)))),
         h', result, h'', result'.
  split; [apply Hrun; lia |]. split; [apply Hrun'; lia |].
  split; [congruence |]. rewrite Hres. apply Hkept. exact Hres.
Qed.



(** The store grows by two arrays, the slice and the concatenation,
    when the loop body unwraps a non-empty array, and not at all
    otherwise. *)
Lemma flatten_body_length h0 s ts acc t rest s' :
  loop_invariant h0 s ts acc ->
  unprocessed s ts = t :: rest ->
  flatten_body s = Some s' ->
  length (st_store s') =
  (length (st_store s)
   + 2 * match t with Nested (_ :: _) => 1 | _ => 0 end)%nat.
Proof.
  destruct s as [h l i r].
  intros ((Hext & list & Hl & Hrep) & Hr & Hfresh & Hne) Hun Hbody.
  pose proof Hun as Hhead. apply unprocessed_head in Hhead as [Ht _].
  cbn in *.
  destruct (Forall2_lookup_r _ _ _ _ _ Hrep Ht) as (it & Hit & Hrepr).
  inversion Hrepr as [v|a sub cs Ha Hsub]; subst.
  - unfold flatten_body in Hbody. cbn in Hbody.
    rewrite Hl in Hbody. cbn in Hbody. rewrite Hit in Hbody. cbn in Hbody.
    injection Hbody as <-. cbn. unfold Array_push. rewrite length_alter. lia.
  - destruct sub as [|x sub'].
    + apply Forall2_nil_inv_l in Hsub as ->.
      unfold flatten_body in Hbody. cbn in Hbody.
      rewrite Hl in Hbody. cbn in Hbody. rewrite Hit in Hbody. cbn in Hbody.
      rewrite (Hext _ _ Ha) in Hbody. cbn in Hbody.
      injection Hbody as <-. cbn. lia.
    + destruct (flatten_body_unwrap h0 (mkState h l i r) ts list a x sub')
        as (cs' & rest' & s1 & _ & Hbody1 & _ & _ & Hstore & _);
        [unfold working_list; eauto | exact Hl | exact Hit | auto |].
      rewrite Hbody in Hbody1. injection Hbody1 as <-.
      rewrite Hstore. cbn. rewrite !length_app. cbn.
      apply Forall2_cons_inv_l in Hsub as (t0 & cs0 & _ & _ & ->). lia.
Qed.

Lemma list_sum_unwrappings_app ts1 ts2 :
  list_sum (map unwrappings (ts1 ++ ts2)) =
  (list_sum (map unwrappings ts1) + list_sum (map unwrappings ts2))%nat.
Proof. rewrite map_app. apply list_sum_app. Qed.

Lemma flatten_loop_length h0 fuel :
  forall s ts acc s',
    loop_invariant h0 s ts acc ->
    flatten_loop fuel s = Some s' ->
    length (st_store s') =
    (length (st_store s) + 2 * list_sum (map unwrappings (unprocessed s ts)))%nat.
Proof.
  induction fuel as [|fuel IH]; intros s ts acc s' Hinv Hloop; [discriminate |].
  pose proof Hinv as ((Hext & list & Hl & Hrep) & _).
  rewrite (flatten_loop_S _ _ _ Hl) in Hloop.
  destruct (unprocessed s ts) as [|t rest] eqn:Hun.
  - assert (Hlen : (length list <= st_i s)%nat).
    { rewrite (Forall2_length _ _ _ Hrep).
      unfold unprocessed in Hun.
      apply (f_equal length) in Hun. rewrite length_drop in Hun.
      cbn in Hun. lia. }
    destruct (Nat.ltb_spec (st_i s) (length list)) as [Hlt|_]; [lia |].
    injection Hloop as <-. cbn. lia.
  - assert (Hlt : (st_i s < length list)%nat).
    { rewrite (Forall2_length _ _ _ Hrep).
      apply unprocessed_head in Hun as [Ht _].
      apply lookup_lt_Some in Ht. exact Ht. }
    destruct (Nat.ltb_spec (st_i s) (length list)) as [_|Hge]; [| lia].
    destruct (flatten_body_invariant _ _ _ _ _ _ Hinv Hun)
      as (s1 & ts' & acc' & Hbody & Hinv' & _ & Hstep).
    rewrite Hbody in Hloop. cbn in Hloop.
    rewrite (IH _ _ _ _ Hinv' Hloop).
    rewrite (flatten_body_length _ _ _ _ _ _ _ Hinv Hun Hbody).
    change (list_sum (map unwrappings (t :: rest)))
      with (unwrappings t + list_sum (map unwrappings rest))%nat.
    destruct t as [v|cs]; destruct Hstep as [_ ->].
    + cbn [unwrappings]. lia.
    + rewrite list_sum_unwrappings_app. cbn [unwrappings].
      destruct cs; lia.
Qed.

(** X7.  Besides its result, [flatten] allocates two arrays for each
    non-empty array of the nested sequence, and nothing else. *)
Theorem flatten_allocations h (list : nat) elems ts fuel h' result :
  h !! list = Some elems ->
  Forall2 (represents h) elems ts ->
  flatten fuel h list = Some (h', result) ->
  length h' = (length h + 1 + 2 * list_sum (map unwrappings ts))%nat.
Proof.
  intros Hlist Hrep. unfold flatten. cbn.
  destruct (flatten_loop fuel _) as [s'|] eqn:Hloop; [| discriminate].
  cbn. intros [= <- <-].
  assert (Hinv : loop_invariant h (mkState (h ++ [[]]) list 0 (length h)) ts []).
  { unfold loop_invariant, working_list. cbn. repeat split.
    - intros a arr Ha. apply lookup_app_l_Some. exact Ha.
    - exists elems. split; [apply lookup_app_l_Some; exact Hlist | exact Hrep].
    - apply list_lookup_middle. reflexivity.
    - apply lookup_ge_None. lia.
    - apply lookup_lt_Some in Hlist. lia. }
  rewrite (flatten_loop_length _ _ _ _ _ _ Hinv Hloop).
  change (unprocessed (mkState (h ++ [[]]) list 0 (length h)) ts) with ts.
  cbn [st_store]. rewrite length_app. cbn [length]. lia.
Qed.

(** *** [addAllToArray] *)

Lemma Array_push_insert h (arr : nat) x (elems : Datatypes.list item) :
  h !! arr = Some elems ->
  Array_push h arr x = <[arr := elems ++ [x]]> h.
Proof.
  intros Harr. unfold Array_push. apply list_eq. intros j.
  destruct (decide (arr = j)) as [<-|Hne].
  - rewrite list_lookup_alter_eq, Harr.
    rewrite list_lookup_insert_eq by (apply lookup_lt_Some in Harr; exact Harr).
    reflexivity.
  - rewrite list_lookup_alter_ne, list_lookup_insert_ne by exact Hne.
    reflexivity.
Qed.

Lemma addAllToArray_loop_S fuel h (items arr i : nat)
    (elems : Datatypes.list item) :
  h !! items = Some elems ->
  addAllToArray_loop (S fuel) h items arr i =
  if (i <? length elems)%nat
  then x ← elems !! i;
       addAllToArray_loop fuel (Array_push h arr x) items arr (i + 1)
  else Some h.
Proof. intros Hitems. cbn [addAllToArray_loop]. rewrite Hitems. reflexivity. Qed.

Lemma addAllToArray_loop_appends h (items arr : nat) xs ys :
  items <> arr ->
  h !! items = Some xs ->
  h !! arr = Some ys ->
  forall fuel i,
    (i <= length xs)%nat ->
    (length xs - i < fuel)%nat ->
    addAllToArray_loop fuel (<[arr := ys ++ take i xs]> h) items arr i
    = Some (<[arr := ys ++ xs]> h).
Proof.
  intros Hne Hitems Harr.
  assert (Hlt : (arr < length h)%nat) by (apply lookup_lt_Some in Harr; exact Harr).
  induction fuel as [|fuel IH]; intros i Hi Hfuel; [lia |].
  rewrite (addAllToArray_loop_S _ _ _ _ _ xs)
    by (rewrite list_lookup_insert_ne by congruence; exact Hitems).
  destruct (Nat.ltb_spec i (length xs)) as [Hlti|Hge].
  - destruct (lookup_lt_is_Some_2 xs i Hlti) as [x Hx]. rewrite Hx. cbn.
    rewrite (Array_push_insert _ _ _ (ys ++ take i xs))
      by (apply list_lookup_insert_eq; exact Hlt).
    rewrite list_insert_insert_eq, <- app_assoc, <- (take_S_r _ _ _ Hx).
    replace (i + 1)%nat with (S i) by lia.
    apply IH; lia.
  - rewrite take_ge by lia. reflexivity.
Qed.

(** X8.  When [items] and [arr] are two different arrays,
    [addAllToArray] ends with the elements of [items] appended to [arr],
    in order; no other array changes and none is allocated. *)
Theorem addAllToArray_appends h (items arr : nat) xs ys fuel :
  items <> arr ->
  h !! items = Some xs ->
  h !! arr = Some ys ->
  (length xs < fuel)%nat ->
  addAllToArray fuel h items arr = Some (<[arr := ys ++ xs]> h).
Proof.
  intros Hne Hitems Harr Hfuel. unfold addAllToArray.
  rewrite <- (list_insert_id h arr ys Harr) at 1.
  rewrite <- (app_nil_r ys) at 1.
  apply (addAllToArray_loop_appends h items arr xs ys Hne Hitems Harr fuel 0%nat);
    lia.
Qed.


End FlattenMore.

(** ** Slots and wrappers *)

Section SlotsMore.

Context {layout : ViewLayout}.

(** Induction on slot values, through the elements of arrays. *)
Lemma any_Forall_ind (P : any -> Prop) :
  P Null -> P Undefined -> (forall id, P (RNode id)) ->
  (forall tNode, P (TNodeObj tNode)) -> (forall tView, P (TViewObj tView)) ->
  (forall items, Forall P items -> P (Arr items)) ->
  forall value, P value.
Proof.
  intros HNull HUndefined HRNode HTNode HTView HArr.
  fix IH 1.
  intros [| |id|tNode|tView|items];
    [exact HNull | exact HUndefined | apply HRNode | apply HTNode | apply HTView |].
  apply HArr. induction items as [|x items IHitems]; constructor.
  - apply IH.
  - exact IHitems.
Qed.

Lemma at_slot_lookup {A B : Type} (k : A -> B) (d : B) items i :
  at_slot k d items i =
  match items !! i with
  | Some x => k x
  | None => d
  end.
Proof.
  revert i. induction items as [|x items IH]; intros [|i]; cbn; auto.
Qed.

Lemma readElementValue_not_array value : isArray value = false ->
  readElementValue value = value.
Proof. destruct value; cbn; congruence. Qed.

Lemma readElementValue_is_bare value : isArray (readElementValue value) = false.
Proof.
  induction value as [| | | | |items IH] using any_Forall_ind; try reflexivity.
  cbn. rewrite at_slot_lookup.
  destruct (items !! HOST) as [host|] eqn:Hhost; [| reflexivity].
  exact (proj1 (Forall_lookup _ _) IH _ _ Hhost).
Qed.

(** X10.  [readElementValue] never returns an array, whatever the
    nesting of wrappers, and applying it again changes nothing; on an
    array too short to have a [HOST] slot it returns [undefined]. *)
Theorem readElementValue_unwraps_fully value :
  isArray (readElementValue value) = false /\
  readElementValue (readElementValue value) = readElementValue value /\
  (forall items, value = Arr items -> (length items <= HOST)%nat ->
                 readElementValue value = Undefined).
Proof.
  split; [apply readElementValue_is_bare |].
  split; [apply readElementValue_not_array, readElementValue_is_bare |].
  intros items -> Hshort. cbn. rewrite at_slot_lookup.
  rewrite (proj2 (lookup_ge_None _ _) Hshort). reflexivity.
Qed.

(** X11.  [getLContainer] returns [null] or a container record, and a
    container record it returns wraps the same render node as its
    argument. *)
Theorem getLContainer_result value :
  getLContainer value = Null \/
  (isLContainer (getLContainer value) = true /\
   readElementValue (getLContainer value) = readElementValue value).
Proof.
  induction value as [| | | | |items IH] using any_Forall_ind;
    try (left; reflexivity).
  cbn. rewrite !at_slot_lookup.
  destruct (items !! HOST) as [host|] eqn:Hhost; [| left; reflexivity].
  destruct (isLContainer host) eqn:Hcontainer.
  - right. split; [exact Hcontainer | reflexivity].
  - exact (proj1 (Forall_lookup _ _) IH _ _ Hhost).
Qed.

(** X12.  [getLContainer] looks below its argument only: when the
    [HOST] slot of an array is not an array, the result is [null], also
    when the argument itself is a container record. *)
Theorem getLContainer_skips_argument items :
  isArray (default Undefined (items !! HOST)) = false ->
  getLContainer (Arr items) = Null.
Proof.
  intros Hhost. cbn. rewrite at_slot_lookup.
  destruct (items !! HOST) as [host|]; [| reflexivity].
  cbn in Hhost. destruct host; try discriminate; reflexivity.
Qed.

(** X13.  No value is both an [LView] and an [LContainer] when the
    container length is below the header offset; otherwise every
    [LContainer] is also an [LView]. *)
Theorem isLView_isLContainer_overlap value :
  ((LCONTAINER_LENGTH < HEADER_OFFSET)%nat ->
   isLView value && isLContainer value = false) /\
  ((HEADER_OFFSET <= LCONTAINER_LENGTH)%nat ->
   isLContainer value = true -> isLView value = true).
Proof.
  destruct value as [| | | | |items]; cbn; try (split; intros; congruence).
  split.
  - intros Hlt.
    destruct (Nat.leb_spec HEADER_OFFSET (length items)),
             (Nat.eqb_spec (length items) LCONTAINER_LENGTH); auto; lia.
  - intros Hle Hcontainer. apply Nat.eqb_eq in Hcontainer.
    apply Nat.leb_le. lia.
Qed.

(** X14.  On a view, [getNativeByIndex] never throws and never returns
    an array; it is [readElementValue] after [loadInternal], agrees
    with [getNativeByTNode] on a descriptor whose index is
    [index + HEADER_OFFSET], and returns [undefined] for an index
    outside the view. *)
Theorem getNativeByIndex_spec items index0 :
  getNativeByIndex index0 (Arr items) =
    (let! slot := loadInternal (Arr items) index0 in
     Returns (readElementValue slot)) /\
  (exists native,
      getNativeByIndex index0 (Arr items) = Returns native /\
      isArray native = false) /\
  (forall tNode,
      index tNode = index0 + Z.of_nat HEADER_OFFSET ->
      getNativeByTNode tNode (Arr items) = getNativeByIndex index0 (Arr items)) /\
  (index0 + Z.of_nat HEADER_OFFSET < 0 \/
   Z.of_nat (length items) <= index0 + Z.of_nat HEADER_OFFSET ->
   getNativeByIndex index0 (Arr items) = Returns Undefined).
Proof.
  split; [reflexivity |].
  unfold getNativeByIndex, getNativeByTNode, get_number_index.
  split; [| split].
  - destruct (index0 + Z.of_nat HEADER_OFFSET <? 0); cbn;
      eexists; (split; [reflexivity |]);
      [reflexivity | apply readElementValue_is_bare].
  - intros tNode ->. reflexivity.
  - intros [Hneg|Hlarge].
    + destruct (Z.ltb_spec (index0 + Z.of_nat HEADER_OFFSET) 0); [reflexivity | lia].
    + destruct (Z.ltb_spec (index0 + Z.of_nat HEADER_OFFSET) 0); [reflexivity |].
      cbn. rewrite (proj2 (lookup_ge_None _ _)) by lia. reflexivity.
Qed.

(** X15.  [getComponentViewByIndex] returns a slot that is an [LView]
    as it is and otherwise the [HOST] slot of the slot, one level only;
    what it returns for an array slot wraps the same render node as the
    slot.  For an index outside the view it throws. *)
Theorem getComponentViewByIndex_spec items nodeIndex :
  0 <= nodeIndex ->
  let slotValue := default Undefined (items !! Z.to_nat nodeIndex) in
  (isLView slotValue = true ->
   getComponentViewByIndex nodeIndex (Arr items) = Returns slotValue) /\
  (forall wrapped,
      isLView slotValue = false -> slotValue = Arr wrapped ->
      getComponentViewByIndex nodeIndex (Arr items)
      = Returns (default Undefined (wrapped !! HOST))) /\
  (isArray slotValue = true ->
   exists found,
     getComponentViewByIndex nodeIndex (Arr items) = Returns found /\
     readElementValue found = readElementValue slotValue) /\
  ((length items <= Z.to_nat nodeIndex)%nat ->
   getComponentViewByIndex nodeIndex (Arr items) = TypeError).
Proof.
  intros Hindex slotValue.
  unfold getComponentViewByIndex, get_number_index.
  destruct (Z.ltb_spec nodeIndex 0) as [Hneg|_]; [lia |].
  cbn [get_index Js.bind]. fold slotValue.
  split; [intros ->; reflexivity |].
  split; [intros wrapped -> ->; reflexivity |].
  split.
  - intros Harray. destruct slotValue as [| | | | |wrapped] eqn:Hslot;
      try discriminate.
    destruct (isLView (Arr wrapped)); [eexists; split; reflexivity |].
    eexists. split; [reflexivity |].
    cbn. rewrite at_slot_lookup.
    destruct (wrapped !! HOST); reflexivity.
  - intros Hout. subst slotValue.
    rewrite (proj2 (lookup_ge_None _ _) Hout). reflexivity.
Qed.

(** [lastSibling] is the last descriptor of the sibling chain. *)
Lemma last_siblings child : last (siblings child) = Some (lastSibling child).
Proof.
  revert child. fix IH 1. intros [i idx p [sibling|]].
  - change (siblings (mkTNode i idx p (Some sibling)))
      with (mkTNode i idx p (Some sibling) :: siblings sibling).
    change (lastSibling (mkTNode i idx p (Some sibling)))
      with (lastSibling sibling).
    rewrite <- IH. destruct sibling as [i' idx' p' [s'|]]; reflexivity.
  - reflexivity.
Qed.

(** X16.  [getLastRootElementFromView] throws when the template has no
    root descriptor; otherwise it reads the slot of the last descriptor
    of the sibling chain of [firstChild], the one without a next
    sibling. *)
Theorem getLastRootElementFromView_last_root lView tView :
  get_index lView TVIEW = Returns (TViewObj tView) ->
  match firstChild tView with
  | None => getLastRootElementFromView lView = TypeError
  | Some child =>
      exists lastChild,
        last (siblings child) = Some lastChild /\
        next lastChild = None /\
        getLastRootElementFromView lView = get_number_index lView (index lastChild)
  end.
Proof.
  intros HtView. unfold getLastRootElementFromView.
  rewrite HtView. cbn [Js.bind].
  destruct (firstChild tView) as [child|]; [| reflexivity].
  exists (lastSibling child).
  split; [apply last_siblings |]. split; [apply lastSibling_is_last | reflexivity].
Qed.

(** X17.  Unwrapping what [getLastRootElementFromView] returns gives
    what [getNativeByTNode] returns for the last root descriptor. *)
Theorem getLastRootElementFromView_unwrapped lView tView child :
  get_index lView TVIEW = Returns (TViewObj tView) ->
  firstChild tView = Some child ->
  (let! slot := getLastRootElementFromView lView in
   Returns (readElementValue slot))
  = getNativeByTNode (lastSibling child) lView.
Proof.
  intros HtView Hchild.
  rewrite (getLastRootElementFromView_raw_slot _ _ _ HtView Hchild).
  reflexivity.
Qed.

End SlotsMore.

(** ** Parent injector lookup *)

Section InjectorMore.

Context {layout : ViewLayout} {flags : RelativeInjectorLocationFlags}.

Lemma ToInt32_range z : - 2 ^ 31 <= ToInt32 z < 2 ^ 31.
Proof.
  unfold ToInt32.
  pose proof (Z.mod_pos_bound (z + 2 ^ 31) (2 ^ 32) ltac:(lia)). lia.
Qed.

(** X18.  Whatever the location, the decoded scope index lies within
    the mask and the decoded view offset within the signed range left
    above the shift. *)
Theorem decoded_fields_bounded (w location : Z) :
  InjectorIndexMask = Z.ones w ->
  0 <= w < 32 ->
  0 <= ViewOffsetShift < 32 ->
  0 <= getParentInjectorIndex location <= InjectorIndexMask /\
  - 2 ^ (31 - ViewOffsetShift) <= getParentInjectorViewOffset location
    < 2 ^ (31 - ViewOffsetShift).
Proof.
  intros Hmask Hw Hs. split.
  - unfold getParentInjectorIndex, bit_and. rewrite Hmask.
    assert (Hpw : 2 ^ w <= 2 ^ 31) by (apply Z.pow_le_mono_r; lia).
    assert (Hones : Z.ones w = 2 ^ w - 1) by (rewrite Z.ones_equiv; lia).
    rewrite (ToInt32_small (Z.ones w)) by lia.
    rewrite Z.land_ones by lia.
    pose proof (Z.mod_pos_bound (ToInt32 location) (2 ^ w) ltac:(lia)). lia.
  - unfold getParentInjectorViewOffset, shift_right.
    rewrite shift_count_small by lia.
    rewrite Z.shiftr_div_pow2 by lia.
    pose proof (ToInt32_range location) as Hrange.
    set (s := ViewOffsetShift) in *. set (x := ToInt32 location) in *.
    assert (Hpos : 0 < 2 ^ s) by (apply Z.pow_pos_nonneg; lia).
    assert (Hsplit : 2 ^ 31 = 2 ^ s * 2 ^ (31 - s)).
    { rewrite <- Z.pow_add_r by lia. f_equal. lia. }
    split.
    + apply Z.div_le_lower_bound; [exact Hpos |]. lia.
    + apply Z.div_lt_upper_bound; [exact Hpos |]. lia.
Qed.

Lemma getParentInjectorViewOffset_negative location :
  ToInt32 location < 0 -> getParentInjectorViewOffset location < 0.
Proof.
  intros Hneg. unfold getParentInjectorViewOffset, shift_right.
  apply Z.shiftr_neg. exact Hneg.
Qed.

(** X19.  For a location that is negative as a 32-bit integer, [-1]
    included, [getParentInjectorView] returns the start view without
    reading it. *)
Theorem getParentInjectorView_negative_location location startView :
  ToInt32 location < 0 ->
  getParentInjectorView location startView = Returns startView.
Proof.
  intros Hneg. unfold getParentInjectorView.
  apply getParentInjectorView_loop_stops.
  pose proof (getParentInjectorViewOffset_negative location Hneg). lia.
Qed.

Lemma getParentInjectorTNode_loop_stops viewOffset parentView parentTNode :
  viewOffset <= 1 ->
  getParentInjectorTNode_loop viewOffset parentView parentTNode
  = Returns parentTNode.
Proof.
  intros Hle. rewrite getParentInjectorTNode_loop_eq.
  destruct (Z_gt_dec viewOffset 1); [lia | reflexivity].
Qed.

(** X20.  On the cross-view path a view offset of 1, of 0 or below
    makes no difference: [getParentInjectorTNode] returns the [T_HOST]
    slot of the start view. *)
Theorem getParentInjectorTNode_no_hop location startView startTNode :
  getParentInjectorViewOffset location <= 1 ->
  no_usable_parent_scope startTNode ->
  getParentInjectorTNode location startView startTNode
  = get_index startView T_HOST.
Proof.
  intros Hle Hparent.
  rewrite getParentInjectorTNode_cross_view by exact Hparent.
  destruct (get_index startView T_HOST) as [tHost|]; cbn [Js.bind];
    [| reflexivity].
  apply getParentInjectorTNode_loop_stops. exact Hle.
Qed.

Lemma declarationViewAncestor_add a b view :
  declarationViewAncestor (a + b) view =
  let! reached := declarationViewAncestor a view in
  declarationViewAncestor b reached.
Proof.
  revert view. induction a as [|a IH]; intros view; cbn; [reflexivity |].
  destruct (get_index view DECLARATION_VIEW); cbn; [apply IH | reflexivity].
Qed.

(** X21.  Climbing composes: a location whose view offset is the sum
    of two others leads to the view reached by following the one, then
    the other. *)
Theorem getParentInjectorView_compose location1 location2 location startView :
  0 <= getParentInjectorViewOffset location1 ->
  0 <= getParentInjectorViewOffset location2 ->
  getParentInjectorViewOffset location =
    getParentInjectorViewOffset location1 + getParentInjectorViewOffset location2 ->
  getParentInjectorView location startView =
  let! reached := getParentInjectorView location1 startView in
  getParentInjectorView location2 reached.
Proof.
  intros H1 H2 Hsum.
  rewrite !getParentInjectorView_climbs, Hsum.
  rewrite Z2Nat.inj_add by lia. rewrite declarationViewAncestor_add.
  destruct (declarationViewAncestor _ startView) as [reached|]; cbn [Js.bind];
    [| reflexivity].
  symmetry. apply getParentInjectorView_climbs.
Qed.

(** X22.  For one location of view offset [n >= 1], the descriptor
    that [getParentInjectorTNode] returns on the cross-view path and
    the view that [getParentInjectorView] returns are two slots of the
    same view, the one [n - 1] hops above the start view: its [T_HOST]
    and its [DECLARATION_VIEW]. *)
Theorem parent_injector_descriptor_and_view location startView startTNode n below :
  getParentInjectorViewOffset location = n ->
  1 <= n ->
  no_usable_parent_scope startTNode ->
  declarationViewAncestor (Z.to_nat (n - 1)) startView = Returns below ->
  getParentInjectorTNode location startView startTNode = get_index below T_HOST /\
  getParentInjectorView location startView = get_index below DECLARATION_VIEW.
Proof.
  intros Hoff Hn Hparent Hbelow. split.
  - rewrite getParentInjectorTNode_cross_view by exact Hparent.
    rewrite Hoff.
    destruct (get_index startView T_HOST) as [tHost|] eqn:Hhost; cbn [Js.bind].
    + replace n with (1 + Z.of_nat (Z.to_nat (n - 1))) at 1 by lia.
      rewrite (getParentInjectorTNode_loop_climbs _ _ _ Hhost), Hbelow.
      reflexivity.
    + pose proof (declarationViewAncestor_fails (Z.to_nat (n - 1)) _ Hhost) as Hfail.
      rewrite Hbelow in Hfail. cbn in Hfail. congruence.
  - rewrite getParentInjectorView_climbs, Hoff.
    replace (Z.to_nat n) with (Z.to_nat (n - 1) + 1)%nat by lia.
    rewrite declarationViewAncestor_add, Hbelow. cbn.
    destruct (get_index below DECLARATION_VIEW); reflexivity.
Qed.

(** X23.  On the fast path [getParentInjectorTNode] never throws and
    reads neither the location nor the view: the result is the same for
    any two locations and views, [null] included. *)
Theorem getParentInjectorTNode_fast_path_ignores_views
    location location' startView startView' startTNode :
  has_parent_scope startTNode ->
  getParentInjectorTNode location startView startTNode
  = getParentInjectorTNode location' startView' startTNode /\
  exists found,
    getParentInjectorTNode location startView startTNode = Returns (TNodeObj found).
Proof.
  intros (parentTNode & Hparent & Hidx).
  rewrite !(getParentInjectorTNode_fast_path _ _ _ _ Hparent Hidx).
  split; [reflexivity | eexists; reflexivity].
Qed.

Lemma getParentInjectorTNode_static_stops idx tNode :
  let found := getParentInjectorTNode_static idx tNode in
  (found = tNode \/ In found (ancestors tNode)) /\
  (parent found = None \/ injectorIndex found <> idx).
Proof.
  revert tNode. fix IH 1. intros [i idx' [further|] nxt]; cbn.
  - destruct (Z.eqb_spec idx idx') as [Heq|Hne].
    + destruct (IH further) as [[Hfound|Hfound] Hstop].
      * split; [right; left; symmetry; exact Hfound | exact Hstop].
      * split; [right; right; exact Hfound | exact Hstop].
    + split; [left; reflexivity | right; cbn; congruence].
  - split; [left; reflexivity | left; reflexivity].
Qed.

(** X24.  On the fast path the descriptor returned has no static
    parent or a scope index other than that of the start descriptor's
    static parent; it is that static parent when it has no parent of
    its own, and one of its strict ancestors otherwise. *)
Theorem getParentInjectorTNode_fast_path_result
    location startView startTNode parentTNode :
  parent startTNode = Some parentTNode ->
  injectorIndex parentTNode <> -1 ->
  exists found,
    getParentInjectorTNode location startView startTNode = Returns (TNodeObj found) /\
    (parent found = None \/ injectorIndex found <> injectorIndex parentTNode) /\
    match parent parentTNode with
    | None => found = parentTNode
    | Some _ => In found (ancestors parentTNode)
    end.
Proof.
  intros Hparent Hidx.
  rewrite (getParentInjectorTNode_fast_path _ _ _ _ Hparent Hidx).
  eexists. split; [reflexivity |].
  split; [apply getParentInjectorTNode_static_stops |].
  destruct parentTNode as [i idx [further|] nxt]; cbn; [| reflexivity].
  rewrite Z.eqb_refl.
  destruct (getParentInjectorTNode_static_stops idx further) as [[->|Hin] _];
    [left; reflexivity | right; exact Hin].
Qed.

End InjectorMore.

(** ** [isPropMetadataString] *)

Section StringsMore.

Lemma indexOf_from_unit c str position :
  0 <= position ->
  (0 <=? indexOf_from str [c] position) = existsb (N.eqb c) str.
Proof.
  revert position. induction str as [|d str IH]; intros position Hpos; cbn.
  - reflexivity.
  - destruct (N.eqb c d); cbn.
    + apply Z.leb_le. exact Hpos.
    + apply IH. lia.
Qed.

(** X25.  [isPropMetadataString] holds of the strings that contain the
    code unit U+FFFD, hence of a concatenation exactly when it holds of
    one of the two parts; it does not hold of the empty string. *)
Theorem isPropMetadataString_spec :
  (forall str, isPropMetadataString str = true <-> In 65533%N str) /\
  (forall str1 str2,
      isPropMetadataString (str1 ++ str2)
      = isPropMetadataString str1 || isPropMetadataString str2) /\
  isPropMetadataString [] = false.
Proof.
  assert (Hexists : forall str,
             isPropMetadataString str = existsb (N.eqb 65533%N) str).
  { intros str. apply indexOf_from_unit. lia. }
  split; [| split; [| reflexivity]].
  - intros str. rewrite Hexists, existsb_exists. split.
    + intros (c & Hin & Heq). apply N.eqb_eq in Heq. subst c. exact Hin.
    + intros Hin. exists 65533%N. split; [exact Hin | apply N.eqb_refl].
  - intros str1 str2. rewrite !Hexists. apply existsb_app.
Qed.

End StringsMore.

(** ** The further properties at sample inputs *)

Section SamplesMore.

Lemma isDifferent_equivalence_witness :
  isDifferent (JsNumber (S754_zero true)) (number 0) = false /\
  isDifferent (number 0) (JsNumber (S754_zero true)) = false /\
  isDifferent (JsNumber (S754_zero true)) (JsNumber (S754_zero true)) = false.
Proof.
  split; [reflexivity |]. split; [reflexivity |].
  exact (proj2 isDifferent_equivalence
           (JsNumber (S754_zero true)) (number 0) (JsNumber (S754_zero true))
           eq_refl eq_refl).
Defined.

Lemma isDifferent_across_types_witness :
  isDifferent (number 1) (JsString "1") = true.
Proof. apply isDifferent_across_types. discriminate. Defined.

Lemma isDifferent_is_strict_inequality_witness :
  isDifferent NaN (number 1) = strict_not_equals NaN (number 1).
Proof.
  apply isDifferent_is_strict_inequality. intros [_ Hnan]. discriminate Hnan.
Defined.

Lemma flatten_flat_is_copy_witness :
  exists h' result,
    flatten 3 sample_flat_store 0 = Some (h', result) /\
    h' !! result = Some [Plain (number 1); Plain (number 2)] /\
    result <> 0%nat /\
    h' !! 0%nat = Some [Plain (number 1); Plain (number 2)].
Proof.
  apply (flatten_flat_is_copy sample_flat_store [number 1; number 2] 0 3);
    [reflexivity | cbn; lia].
Defined.

Lemma flatten_idempotent_witness :
  exists fuel fuel' h' result h'' result',
    flatten fuel sample_store 2 = Some (h', result) /\
    flatten fuel' h' result = Some (h'', result') /\
    h'' !! result' = h' !! result /\
    h'' !! result = h' !! result.
Proof.
  exact (flatten_idempotent sample_store 2 _ sample_nested
           eq_refl sample_store_represents).
Defined.


Lemma flatten_allocations_witness :
  exists h' result,
    flatten 9 sample_store 2 = Some (h', result) /\ length h' = 8%nat.
Proof.
  eexists _, _. split; [reflexivity |].
  exact (flatten_allocations sample_store 2 _ sample_nested 9 _ _
           eq_refl sample_store_represents eq_refl).
Defined.

Lemma addAllToArray_appends_witness :
  addAllToArray 2 sample_flat_store 1 0
  = Some [ [Plain (number 1); Plain (number 2); Plain (number 3)];
           [Plain (number 3)] ].
Proof.
  apply (addAllToArray_appends sample_flat_store 1 0
           [Plain (number 3)] [Plain (number 1); Plain (number 2)] 2);
    [discriminate | reflexivity | reflexivity | cbn; lia].
Defined.


Lemma readElementValue_unwraps_fully_witness :
  @readElementValue sample_layout (Arr []) = Undefined.
Proof.
  apply (proj2 (proj2 (@readElementValue_unwraps_fully sample_layout (Arr [])))
               []);
    [reflexivity | cbn; lia].
Defined.

Lemma getLContainer_skips_argument_witness :
  @isLContainer sample_layout (sample_container (RNode 7) Null) = true /\
  @getLContainer sample_layout (sample_container (RNode 7) Null) = Null.
Proof.
  split; [reflexivity |].
  apply (@getLContainer_skips_argument sample_layout). reflexivity.
Defined.

Lemma isLView_isLContainer_overlap_witness :
  @isLView sample_layout sample_component_view
  && @isLContainer sample_layout sample_component_view = false.
Proof.
  apply (proj1 (@isLView_isLContainer_overlap sample_layout sample_component_view)).
  cbn. lia.
Defined.

Lemma getNativeByIndex_spec_witness :
  @getNativeByTNode sample_layout sample_root sample_host_view
  = @getNativeByIndex sample_layout 0 sample_host_view /\
  @getNativeByIndex sample_layout 5 sample_host_view = Returns Undefined.
Proof.
  unfold sample_host_view, sample_view.
  split.
  - apply (proj1 (proj2 (proj2 (@getNativeByIndex_spec sample_layout _ 0)))).
    reflexivity.
  - apply (proj2 (proj2 (proj2 (@getNativeByIndex_spec sample_layout _ 5)))).
    right. cbn. lia.
Defined.

Lemma getComponentViewByIndex_spec_witness :
  @getComponentViewByIndex sample_layout 18 sample_host_view
  = Returns sample_component_view /\
  @getComponentViewByIndex sample_layout 19 sample_host_view = TypeError.
Proof.
  unfold sample_host_view, sample_view.
  split.
  - apply (proj1 (proj2 (@getComponentViewByIndex_spec sample_layout _ 18
                           ltac:(lia)))
                 ([sample_component_view; Null; Null; Null] ++ replicate 4 Null));
      reflexivity.
  - apply (proj2 (proj2 (proj2 (@getComponentViewByIndex_spec sample_layout _ 19
                                  ltac:(lia))))).
    cbn. lia.
Defined.

Lemma getLastRootElementFromView_last_root_witness :
  exists lastChild,
    last (siblings sample_first_root) = Some lastChild /\
    next lastChild = None /\
    @getLastRootElementFromView sample_layout sample_two_root_view
    = get_number_index sample_two_root_view (index lastChild).
Proof.
  exact (@getLastRootElementFromView_last_root sample_layout
           sample_two_root_view (mkTView (Some sample_first_root)) eq_refl).
Defined.

Lemma getLastRootElementFromView_unwrapped_witness :
  (let! slot := @getLastRootElementFromView sample_layout sample_wrapped_view in
   Returns (@readElementValue sample_layout slot))
  = Returns (RNode 7).
Proof.
  rewrite (@getLastRootElementFromView_unwrapped sample_layout
             sample_wrapped_view (mkTView (Some sample_root)) sample_root
             eq_refl eq_refl).
  reflexivity.
Defined.

Lemma decoded_fields_bounded_witness :
  0 <= @getParentInjectorIndex sample_flags (-1) <= 32767 /\
  - 2 ^ 15 <= @getParentInjectorViewOffset sample_flags (-1) < 2 ^ 15.
Proof.
  apply (@decoded_fields_bounded sample_flags 15 (-1));
    [reflexivity | lia | cbn; lia].
Defined.

Lemma getParentInjectorView_negative_location_witness :
  @getParentInjectorView sample_layout sample_flags (-1) Null = Returns Null.
Proof.
  apply (@getParentInjectorView_negative_location sample_layout sample_flags).
  reflexivity.
Defined.

Lemma getParentInjectorTNode_no_hop_witness :
  @getParentInjectorTNode sample_layout sample_flags 5 sample_outer_view sample_root
  = Returns (TNodeObj sample_host).
Proof.
  rewrite (@getParentInjectorTNode_no_hop sample_layout sample_flags
             5 sample_outer_view sample_root);
    [reflexivity | vm_compute; discriminate | exact I].
Defined.

Lemma getParentInjectorView_compose_witness :
  @getParentInjectorView sample_layout sample_flags 131072 sample_innermost_view
  = Returns sample_outer_view.
Proof.
  rewrite (@getParentInjectorView_compose sample_layout sample_flags
             65536 65536 131072 sample_innermost_view);
    [reflexivity | vm_compute; discriminate | vm_compute; discriminate
    | reflexivity].
Defined.

Lemma parent_injector_descriptor_and_view_witness :
  @getParentInjectorTNode sample_layout sample_flags
    65536 sample_outer_view sample_root
  = Returns (TNodeObj sample_host) /\
  @getParentInjectorView sample_layout sample_flags 65536 sample_outer_view
  = Returns Null.
Proof.
  exact (@parent_injector_descriptor_and_view sample_layout sample_flags
           65536 sample_outer_view sample_root 1 sample_outer_view
           eq_refl ltac:(lia) I eq_refl).
Defined.

Lemma getParentInjectorTNode_fast_path_ignores_views_witness :
  @getParentInjectorTNode sample_layout sample_flags 0 Null sample_start
  = @getParentInjectorTNode sample_layout sample_flags
      131072 sample_inner_view sample_start.
Proof.
  apply (@getParentInjectorTNode_fast_path_ignores_views
           sample_layout sample_flags).
  exists sample_parent. split; [reflexivity | discriminate].
Defined.

Lemma getParentInjectorTNode_fast_path_result_witness :
  exists found,
    @getParentInjectorTNode sample_layout sample_flags 0 Null sample_start
    = Returns (TNodeObj found) /\
    (parent found = None \/ injectorIndex found <> 12) /\
    In found (ancestors sample_parent).
Proof.
  exact (@getParentInjectorTNode_fast_path_result sample_layout sample_flags
           0 Null sample_start sample_parent eq_refl ltac:(discriminate)).
Defined.

Lemma isPropMetadataString_spec_witness :
  isPropMetadataString [112%N; 65533%N; 115%N] = true.
Proof.
  apply (proj1 isPropMetadataString_spec). right. left. reflexivity.
Defined.

End SamplesMore.
